(** * poster: batch address normalisation and parsing over libpostal

    A shallow embedding of [src/postal.cpp] (namespace [poster_internal]) and
    of the lifecycle entry point [setup] of the exported wrapper file, with
    the properties of the batch harness proved about it.

    The libpostal engine is opaque: [expand_address] and [parse_address] are
    parameters of the development.  Every engine call a function makes is
    recorded, so that statements of the form "no engine call is made" are
    statements about the code.

    Conventions of the model:
    - an R string is [option string], [None] being [NA_STRING]; a
      [CharacterVector] is a list, read with [!!!] where the source indexes
      within bounds by construction and with [vec_at] where the index is a
      run-time [int];
    - a C++ function is a computation in [M]: it returns or raises, and
      lists the engine calls it made;
    - [Rcpp::checkUserInterrupt] raises when the host has an interrupt
      pending, which the parameter [interrupt_pending] decides;
    - [unsigned int] and [size_t] values are natural numbers ([N] where
      [npos] matters); batches are taken to be short enough for
      [unsigned int input_size] to hold their length;
    - a loop counter that the source reads before writing it starts from a
      value the model leaves open (a parameter [i0]). *)

From Stdlib Require Import ZArith NArith String List Lia Bool.
From stdpp Require Import base option list strings.

Local Open Scope string_scope.
Local Open Scope list_scope.
Local Open Scope nat_scope.

(** ** Data model *)

(** An element of an R character vector: [NA_STRING] or a string. *)
Abbreviation RString := (option string) (only parsing).
Definition NA_STRING : RString := None.

(** [Rcpp::CharacterVector]. *)
Abbreviation CharacterVector := (list RString) (only parsing).

(** [CharacterVector v(n)]: R allocates a string vector filled with the
    blank string. *)
Definition new_vector (n : nat) : CharacterVector := replicate n (Some "").

(** [CharacterVector v(n, NA_STRING)]. *)
Definition new_vector_na (n : nat) : CharacterVector := replicate n NA_STRING.

(** [Rcpp::DataFrame]: named columns, in the order they were given. *)
Abbreviation DataFrame := (list (string * CharacterVector)) (only parsing).

(** [address_parser_response_t]: the parallel arrays [labels] and
    [components], both of length [num_components], as a list of
    (label, component) pairs in array order. *)
Abbreviation address_parser_response_t := (list (string * string))
  (only parsing).

(** ** Effects *)

(** The calls into libpostal that a batch operation can make on an
    address.  Fetching the default options
    ([get_libpostal_default_options],
    [get_libpostal_address_parser_default_options]) builds a value once per
    batch and touches no address: it is not among them. *)
Inductive engine_call : Type :=
| call_expand_address (text : string)
| call_parse_address (text : string).

(** The ways in which the C++ code leaves a function without returning. *)
Inductive exn : Type :=
| user_interrupt                    (* Rcpp::checkUserInterrupt() *)
| rcpp_stop (msg : string)          (* Rcpp::stop(msg) *)
| std_runtime_error (msg : string)  (* throw std::runtime_error(msg) *)
| std_out_of_range                  (* std::string::replace, pos > size() *)
| subscript_out_of_bounds.          (* operator[] outside the vector *)

Inductive outcome (A : Type) : Type :=
| Returned (a : A)
| Raised (e : exn).
Arguments Returned {A} a.
Arguments Raised {A} e.

(** A computation yields an outcome and the engine calls made on the way,
    oldest first. *)
Definition M (A : Type) : Type := (outcome A * list engine_call)%type.

Definition ret {A} (a : A) : M A := (Returned a, []).
Definition raise {A} (e : exn) : M A := (Raised e, []).
Definition tell (c : engine_call) : M unit := (Returned tt, [c]).

Definition bind {A B} (m : M A) (k : A → M B) : M B :=
  match m with
  | (Returned a, t) => let '(r, t') := k a in (r, t ++ t')
  | (Raised e, t) => (Raised e, t)
  end.

Declare Scope cxx_scope.
Delimit Scope cxx_scope with cxx.
Notation "'let*' x ':=' m 'in' k" := (bind m (λ x, k))
  (at level 10, x name, m at level 100, k at level 200, only parsing)
  : cxx_scope.
Local Open Scope cxx_scope.

Definition outcome_of {A} (m : M A) : outcome A := m.1.
Definition calls_of {A} (m : M A) : list engine_call := m.2.

(** [for (unsigned int i = start; i < bound; i++) body], threading the
    variables the body assigns to as [s].  [count] is the number of
    iterations still to run. *)
Fixpoint for_loop {S : Type} (count i : nat) (body : nat → S → M S) (s : S)
  : M S :=
  match count with
  | O => ret s
  | Datatypes.S count' =>
      let* s' := body i s in
      for_loop count' (Datatypes.S i) body s'
  end.

Definition for_range {S : Type} (start bound : nat) (body : nat → S → M S)
  (s : S) : M S :=
  for_loop (bound - start) start body s.

(** ** std::string *)

(** [std::string::npos], the largest [size_t]. *)
Definition npos : N := (2 ^ 64 - 1)%N.

(** [s.find(needle)]: position of the first occurrence, or [npos]. *)
Definition std_find (s needle : string) : N :=
  match String.index 0 needle s with
  | Some p => N.of_nat p
  | None => npos
  end.

(** [s.replace(pos, len, str)]: throws when [pos > s.size()]; otherwise
    removes [min(len, size - pos)] characters at [pos] and puts [str] in
    their place. *)
Definition std_replace (s : string) (pos len : N) (str : string) : M string :=
  let size := N.of_nat (String.length s) in
  if (size <? pos)%N then raise std_out_of_range
  else
    let n := N.min len (size - pos) in
    let p := N.to_nat pos in
    let q := N.to_nat (pos + n) in
    ret (String.substring 0 p s +:+ str
         +:+ String.substring q (String.length s - q) s).

(** ** Vector element access *)

(** [v[k]] for a run-time [int k].  Reading outside the vector is undefined
    in the source; the model stops there. *)
Definition vec_at (v : CharacterVector) (k : Z) : M RString :=
  if ((0 <=? k)%Z && (k <? Z.of_nat (length v))%Z)%bool
  then ret (v !!! Z.to_nat k)
  else raise subscript_out_of_bounds.

(** ** Engine lifecycle *)

Section Lifecycle.

(** The process-wide state of libpostal. *)
Context {engine_state : Type}.

(** The three initialisers: each reports success or failure and leaves
    the engine in a new state. *)
Variable libpostal_setup : engine_state → bool * engine_state.
Variable libpostal_setup_language_classifier
  : engine_state → bool * engine_state.
Variable libpostal_setup_parser : engine_state → bool * engine_state.

Inductive subsystem : Type := core_data | language_classifier | parser.

(** What [setup] leaves behind: its outcome, the reports of the
    initialisers it ran (in order), and the engine state. *)
Record setup_result : Type := SetupResult {
  setup_outcome : outcome unit;
  setup_reports : list (subsystem * bool);
  setup_state : engine_state
}.

Definition setup_failed_message : string := "Libbpostal setup failed".

(** [setup]: the condition is a short-circuit [||] of the three negated
    reports, so an initialiser runs only if those before it succeeded. *)
Definition setup (st : engine_state) : setup_result :=
  let '(ok1, st1) := libpostal_setup st in
  if negb ok1 then
    SetupResult (Raised (std_runtime_error setup_failed_message))
      [(core_data, ok1)] st1
  else
    let '(ok2, st2) := libpostal_setup_language_classifier st1 in
    if negb ok2 then
      SetupResult (Raised (std_runtime_error setup_failed_message))
        [(core_data, ok1); (language_classifier, ok2)] st2
    else
      let '(ok3, st3) := libpostal_setup_parser st2 in
      if negb ok3 then
        SetupResult (Raised (std_runtime_error setup_failed_message))
          [(core_data, ok1); (language_classifier, ok2); (parser, ok3)] st3
      else
        SetupResult (Returned tt)
          [(core_data, ok1); (language_classifier, ok2); (parser, ok3)] st3.

End Lifecycle.

(** ** Fixtures: concrete engines used to run the model *)

Module Fixture.

(** An engine that lower-cases what it recognises, as libpostal does. *)
Definition expand_address (text : string) : list string :=
  if String.eqb text "fourty seven love lane"
  then ["47 love lane"; "47 love ln"]
  else [].

Definition parse_address (text : string) : address_parser_response_t :=
  if String.eqb text "12 Main St" then
    [("house_number", "12"); ("road", "main st")]
  else if String.eqb text "12 main st london" then
    [("city", "paris"); ("house_number", "12"); ("road", "main st");
     ("po_box", "7"); ("city", "london"); ("state", "")]
  else [].

Definition no_interrupt (i : nat) : bool := false.

End Fixture.

(** ** The program *)

Section Poster.

(** The opaque engine, with its default options applied. *)
Variable expand_address : string → list string.
Variable parse_address : string → address_parser_response_t.

(** Whether the host has an interrupt pending when the check made at loop
    index [i] runs. *)
Variable interrupt_pending : nat → bool.

Definition checkUserInterrupt (i : nat) : M unit :=
  if interrupt_pending i then raise user_interrupt else ret tt.

(** [if ((i % 10000) == 0) Rcpp::checkUserInterrupt();] *)
Definition interrupt_checkpoint (i : nat) : M unit :=
  if (N.of_nat i mod 10000 =? 0)%N then checkUserInterrupt i else ret tt.

Definition do_expand_address (text : string) : M (list string) :=
  let* _ := tell (call_expand_address text) in ret (expand_address text).

Definition do_parse_address (text : string) : M address_parser_response_t :=
  let* _ := tell (call_parse_address text) in ret (parse_address text).

(** [poster_internal::isna] *)
Definition isna (x : string) : RString :=
  if String.eqb x "" then NA_STRING else Some x.

(** One iteration of the loop over the components in [parse_single]: ten
    independent tests of the label, each overwriting its own slot. *)
Definition parse_single_step (output : CharacterVector)
  (lc : string * string) : CharacterVector :=
  let '(label, component) := lc in
  let output :=
    if String.eqb label "house"
    then <[0%nat := isna component]> output else output in
  let output :=
    if String.eqb label "house_number"
    then <[1%nat := isna component]> output else output in
  let output :=
    if String.eqb label "road"
    then <[2%nat := isna component]> output else output in
  let output :=
    if String.eqb label "suburb"
    then <[3%nat := isna component]> output else output in
  let output :=
    if String.eqb label "city_district"
    then <[4%nat := isna component]> output else output in
  let output :=
    if String.eqb label "city"
    then <[5%nat := isna component]> output else output in
  let output :=
    if String.eqb label "state_district"
    then <[6%nat := isna component]> output else output in
  let output :=
    if String.eqb label "state"
    then <[7%nat := isna component]> output else output in
  let output :=
    if String.eqb label "postal_code"
    then <[8%nat := isna component]> output else output in
  let output :=
    if String.eqb label "country"
    then <[9%nat := isna component]> output else output in
  output.

(** [poster_internal::parse_single] *)
Definition parse_single (x : string) : M CharacterVector :=
  let output := new_vector_na 10 in
  let* parsed := do_parse_address x in
  ret (fold_left parse_single_step parsed output).

(** The body of the loop of [address_normalise]. *)
Definition address_normalise_body (addresses : CharacterVector) (i : nat)
  (output : CharacterVector) : M CharacterVector :=
  let* _ := interrupt_checkpoint i in
  match addresses !!! i with
  | None => ret (<[i := NA_STRING]> output)
  | Some a =>
      let* expansions := do_expand_address a in
      match expansions with
      | [] => ret (<[i := Some a]> output)
      | first :: _ => ret (<[i := Some first]> output)
      end
  end.

(** [poster_internal::address_normalise] *)
Definition address_normalise (addresses : CharacterVector)
  : M CharacterVector :=
  let input_size := length addresses in
  let output := new_vector input_size in
  for_range 0 input_size (address_normalise_body addresses) output.

(** The ten column vectors that [parse_addr] fills. *)
Record columns : Type := Columns {
  house : CharacterVector;
  house_number : CharacterVector;
  road : CharacterVector;
  suburb : CharacterVector;
  city_district : CharacterVector;
  city : CharacterVector;
  state_district : CharacterVector;
  state : CharacterVector;
  postal_code : CharacterVector;
  country : CharacterVector
}.

(** The body of the [if (addresses[i] != NA_STRING)] in [parse_addr]:
    the ten assignments [column[i] = holding[k]]. *)
Definition scatter (i : nat) (holding : CharacterVector) (c : columns)
  : columns :=
  {| house := <[i := holding !!! 0%nat]> (house c);
     house_number := <[i := holding !!! 1%nat]> (house_number c);
     road := <[i := holding !!! 2%nat]> (road c);
     suburb := <[i := holding !!! 3%nat]> (suburb c);
     city_district := <[i := holding !!! 4%nat]> (city_district c);
     city := <[i := holding !!! 5%nat]> (city c);
     state_district := <[i := holding !!! 6%nat]> (state_district c);
     state := <[i := holding !!! 7%nat]> (state c);
     postal_code := <[i := holding !!! 8%nat]> (postal_code c);
     country := <[i := holding !!! 9%nat]> (country c) |}.

(** [DataFrame::create(_["house"] = house, ...)] *)
Definition DataFrame_create (c : columns) : DataFrame :=
  [("house", house c);
   ("house_number", house_number c);
   ("road", road c);
   ("suburb", suburb c);
   ("city_district", city_district c);
   ("city", city c);
   ("state_district", state_district c);
   ("state", state c);
   ("postal_code", postal_code c);
   ("country", country c)].

(** The loops of [parse_addr], [get_elements] and [set_elements] are
    written [for (unsigned int i; i < input_size; i++)]: the counter is
    declared without an initialiser, so the value it starts from is
    indeterminate.  That value is the parameter [i0] of these three
    functions; the loop of [address_normalise] starts from a written
    [i = 0]. *)

(** The body of the loop of [parse_addr]. *)
Definition parse_addr_body (addresses : CharacterVector) (i : nat)
  (cols : columns) : M columns :=
  let* _ := interrupt_checkpoint i in
  match addresses !!! i with
  | Some a =>
      let* holding := parse_single a in
      ret (scatter i holding cols)
  | None => ret cols
  end.

(** [poster_internal::parse_addr] *)
Definition parse_addr (i0 : nat) (addresses : CharacterVector)
  : M DataFrame :=
  let input_size := length addresses in
  let cols :=
    {| house := new_vector_na input_size;
       house_number := new_vector_na input_size;
       road := new_vector_na input_size;
       suburb := new_vector_na input_size;
       city_district := new_vector_na input_size;
       city := new_vector_na input_size;
       state_district := new_vector_na input_size;
       state := new_vector_na input_size;
       postal_code := new_vector_na input_size;
       country := new_vector_na input_size |} in
  let* cols := for_range i0 input_size (parse_addr_body addresses) cols in
  ret (DataFrame_create cols).

(** The body of the loop of [get_elements]. *)
Definition get_elements_body (addresses : CharacterVector) (element : Z)
  (i : nat) (output : CharacterVector) : M CharacterVector :=
  let* _ := interrupt_checkpoint i in
  match addresses !!! i with
  | None => ret (<[i := NA_STRING]> output)
  | Some a =>
      let* holding := parse_single a in
      let* field := vec_at holding element in
      ret (<[i := field]> output)
  end.

(** [poster_internal::get_elements] *)
Definition get_elements (i0 : nat) (addresses : CharacterVector)
  (element : Z) : M CharacterVector :=
  let input_size := length addresses in
  let output := new_vector input_size in
  for_range i0 input_size (get_elements_body addresses element) output.

(** The treatment of a non-missing address with a non-missing replacement,
    written out twice in [set_elements], once in each loop: [a] is
    [addresses[i]], [replacement] the new value for this element, and the
    result is what is assigned to [output[i]]. *)
Definition replace_field (a : string) (element : Z) (replacement : string)
  : M RString :=
  let* holding := parse_single a in
  let addr_cp := a in
  let* field := vec_at holding element in
  match field with
  | None => ret (Some a)
  | Some value =>
      let* addr_cp :=
        std_replace addr_cp (std_find addr_cp value)
          (N.of_nat (String.length value)) replacement in
      ret (Some addr_cp)
  end.

Definition length_mismatch_message : string :=
  "The set of new values must be the same length as the addresses, or of length 1".

(** The body of the first loop of [set_elements]: one replacement,
    [new_value[0]], for every address. *)
Definition set_elements_body_single (addresses : CharacterVector)
  (replacement : string) (element : Z) (i : nat) (output : CharacterVector)
  : M CharacterVector :=
  let* _ := interrupt_checkpoint i in
  match addresses !!! i with
  | None => ret (<[i := NA_STRING]> output)
  | Some a =>
      let* r := replace_field a element replacement in
      ret (<[i := r]> output)
  end.

(** The body of the second loop of [set_elements]: [new_value[i]] replaces
    in [addresses[i]]. *)
Definition set_elements_body_each (addresses new_value : CharacterVector)
  (element : Z) (i : nat) (output : CharacterVector) : M CharacterVector :=
  let* _ := interrupt_checkpoint i in
  match addresses !!! i with
  | None => ret (<[i := NA_STRING]> output)
  | Some a =>
      match new_value !!! i with
      | None => ret (<[i := Some a]> output)
      | Some replacement =>
          let* r := replace_field a element replacement in
          ret (<[i := r]> output)
      end
  end.

(** [poster_internal::set_elements] *)
Definition set_elements (i0 : nat) (addresses new_value : CharacterVector)
  (element : Z) : M CharacterVector :=
  let input_size := length addresses in
  let output := new_vector input_size in
  if (length new_value =? 1)%nat then
    match new_value !!! 0%nat with
    | None => ret addresses
    | Some replacement =>
        for_range i0 input_size
          (set_elements_body_single addresses replacement element) output
    end
  else if (length new_value =? input_size)%nat then
    for_range i0 input_size
      (set_elements_body_each addresses new_value element) output
  else raise (rcpp_stop length_mismatch_message).

(** ** The single-address parser, in the specification's words *)

(** The null-safe string adapter: the empty string is absent, any other
    string is itself. *)
Definition toOptional (raw : string) : RString :=
  match raw with
  | EmptyString => None
  | String _ _ => Some raw
  end.

(** The ten known field names, in slot order. *)
Definition field_names : list string :=
  ["house"; "house_number"; "road"; "suburb"; "city_district"; "city";
   "state_district"; "state"; "postal_code"; "country"].

(** The slot of a field: absent when no pair carries its label, else
    [toOptional] of the value of the last pair that does. *)
Definition slot_by_last_write (name : string)
  (pairs : address_parser_response_t) : RString :=
  match last (filter (λ lc, lc.1 = name) pairs) with
  | Some (_, value) => toOptional value
  | None => NA_STRING
  end.

(** The 10-slot record of a list of (label, value) pairs. *)
Definition address_record (pairs : address_parser_response_t)
  : CharacterVector :=
  (λ name, slot_by_last_write name pairs) <$> field_names.

(** ** The batch operations, element by element *)

(** What [address_normalise] writes for one element. *)
Definition normalise_element (a : RString) : RString :=
  match a with
  | None => NA_STRING
  | Some a =>
      match expand_address a with
      | [] => Some a
      | first :: _ => Some first
      end
  end.

(** The engine calls one element costs: none when it is missing. *)
Definition expand_calls (a : RString) : list engine_call :=
  match a with
  | None => []
  | Some a => [call_expand_address a]
  end.

Definition parse_calls (a : RString) : list engine_call :=
  match a with
  | None => []
  | Some a => [call_parse_address a]
  end.

(** Slot [k] of the record of one element; missing when the element is. *)
Definition field_of (k : nat) (a : RString) : RString :=
  match a with
  | None => NA_STRING
  | Some a => address_record (parse_address a) !!! k
  end.

(** The columns of [parse_addr] as a list, in declaration order. *)
Definition column_list (c : columns) : list CharacterVector :=
  [house c; house_number c; road c; suburb c; city_district c; city c;
   state_district c; state c; postal_code c; country c].

(** What one iteration of [parse_addr] does to its columns. *)
Definition parse_addr_update (addresses : CharacterVector) (i : nat)
  (c : columns) : columns :=
  match addresses !!! i with
  | Some a => scatter i (address_record (parse_address a)) c
  | None => c
  end.

(** What one iteration of [parse_addr] writes into column [k], if
    anything. *)
Definition parse_addr_write (addresses : CharacterVector) (k i : nat)
  : option RString :=
  match addresses !!! i with
  | Some a => Some (address_record (parse_address a) !!! k)
  | None => None
  end.

(** The shape the loop bodies over an output vector share: the periodic
    interrupt check, a computation for element [i], and the assignment of
    its result to [output[i]]. *)
Definition elementwise_body (elem : nat → M RString) (i : nat)
  (output : CharacterVector) : M CharacterVector :=
  let* _ := interrupt_checkpoint i in
  let* x := elem i in
  ret (<[i := x]> output).

(** What [address_normalise] does for one element. *)
Definition normalise_run (a : RString) : M RString :=
  match a with
  | None => ret NA_STRING
  | Some a =>
      let* expansions := do_expand_address a in
      match expansions with
      | [] => ret (Some a)
      | first :: _ => ret (Some first)
      end
  end.

(** What [get_elements] does for one element. *)
Definition get_element (element : Z) (a : RString) : M RString :=
  match a with
  | None => ret NA_STRING
  | Some a =>
      let* holding := parse_single a in
      vec_at holding element
  end.

(** What [set_elements] does for one element and its replacement. *)
Definition set_element (element : Z) (a replacement : RString) : M RString :=
  match a with
  | None => ret NA_STRING
  | Some a =>
      match replacement with
      | None => ret (Some a)
      | Some replacement => replace_field a element replacement
      end
  end.

(** The replacement that goes with address [i]: [new_value[0]] in the first
    loop of [set_elements], [new_value[i]] in the second. *)
Definition replacement_at (new_value : CharacterVector) (i : nat) : RString :=
  if (length new_value =? 1)%nat then new_value !!! 0%nat
  else new_value !!! i.

(** The loop of [set_elements], whichever of the two is taken. *)
Definition set_elements_loop (i0 : nat) (addresses new_value : CharacterVector)
  (element : Z) : M CharacterVector :=
  for_range i0 (length addresses)
    (elementwise_body
       (λ j, set_element element (addresses !!! j) (replacement_at new_value j)))
    (new_vector (length addresses)).

(** The field value [set_elements] looks for occurs in the address. *)
Definition field_found (element : Z) (a : RString) : Prop :=
  match field_of (Z.to_nat element) a, a with
  | Some value, Some a => is_Some (String.index 0 value a)
  | _, _ => True
  end.

(** ** Computations *)

Lemma bind_ret {A B : Type} (a : A) (k : A → M B) : bind (ret a) k = k a.
Proof. unfold bind, ret. by destruct (k a). Qed.

Lemma bind_returned {A B : Type} (m : M A) (k : A → M B) a t :
  m = (Returned a, t) → bind m k = ((k a).1, t ++ (k a).2).
Proof. intros ->. unfold bind. by destruct (k a). Qed.

(** A bind returns only if both of its parts do. *)
Lemma bind_returned_inv {A B : Type} (m : M A) (k : A → M B) b :
  outcome_of (bind m k) = Returned b →
  ∃ a, outcome_of m = Returned a ∧ outcome_of (k a) = Returned b.
Proof.
  destruct m as [[a|e] t]; unfold outcome_of, bind; simpl; [|done].
  destruct (k a) as [r t'] eqn:Hk. simpl. intros ->.
  exists a. by rewrite Hk.
Qed.

(** A bind raises what one of its parts raises. *)
Lemma bind_raised_inv {A B : Type} (m : M A) (k : A → M B) e :
  outcome_of (bind m k) = Raised e →
  outcome_of m = Raised e ∨
  ∃ a, outcome_of m = Returned a ∧ outcome_of (k a) = Raised e.
Proof.
  destruct m as [[a|e'] t]; unfold outcome_of, bind; simpl;
    [|intros [= ->]; by left].
  destruct (k a) as [r t'] eqn:Hk. simpl. intros ->.
  right. exists a. by rewrite Hk.
Qed.

Lemma interrupt_checkpoint_quiet i :
  (∀ j, interrupt_pending j = false) → interrupt_checkpoint i = ret tt.
Proof.
  intros Hq. unfold interrupt_checkpoint, checkUserInterrupt.
  rewrite Hq. by destruct (_ =? _)%N.
Qed.

(** The checkpoint either returns or raises the interrupt. *)
Lemma interrupt_checkpoint_cases i :
  interrupt_checkpoint i = ret tt ∨ interrupt_checkpoint i = raise user_interrupt.
Proof.
  unfold interrupt_checkpoint, checkUserInterrupt.
  destruct (_ =? _)%N; [|by left]. destruct (interrupt_pending i); auto.
Qed.

(** Case analysis on the checkpoint at the head of a loop body: the goal
    is closed when the checkpoint raises and goes on past it otherwise. *)
Ltac past_checkpoint i :=
  destruct (interrupt_checkpoint_cases i) as [-> | ->];
  [rewrite ?bind_ret|done].

(** ** Loops *)

Section Loops.

Context {S : Type}.
Implicit Types (body : nat → S → M S) (s : S).

(** A loop whose body always returns runs all its iterations. *)
Lemma for_loop_pure body (upd : nat → S → S) (tr : nat → list engine_call)
  count i s :
  (∀ j s, i ≤ j < i + count → body j s = (Returned (upd j s), tr j)) →
  for_loop count i body s
  = (Returned (fold_left (λ s j, upd j s) (seq i count) s),
     concat (tr <$> seq i count)).
Proof.
  revert i s. induction count as [|count IH]; intros i s Hbody; [done|].
  cbn [for_loop seq fold_left fmap list_fmap concat].
  rewrite (bind_returned _ _ _ _ (Hbody i s ltac:(lia))).
  rewrite IH; [done|]. intros j s' Hj. apply Hbody. lia.
Qed.

(** A loop raises only what its body raises. *)
Lemma for_loop_raised_inv (Q : exn → Prop) body count i s e :
  (∀ j s1 e, outcome_of (body j s1) = Raised e → Q e) →
  outcome_of (for_loop count i body s) = Raised e → Q e.
Proof.
  intros Hstep. revert i s.
  induction count as [|count IH]; intros i s; cbn [for_loop].
  - unfold outcome_of, ret. simpl. done.
  - intros [H|(s1 & H1 & H2)]%bind_raised_inv; eauto.
Qed.

(** An invariant that follows the counter. *)
Lemma for_loop_returned_inv_at (P : nat → S → Prop) body count i s s' :
  P i s →
  (∀ j s1 s2, i ≤ j < i + count →
     P j s1 → outcome_of (body j s1) = Returned s2 → P (Datatypes.S j) s2) →
  outcome_of (for_loop count i body s) = Returned s' → P (i + count) s'.
Proof.
  revert i s. induction count as [|count IH]; intros i s Hs Hstep;
    cbn [for_loop].
  - unfold outcome_of, ret. simpl. intros [= <-]. by rewrite Nat.add_0_r.
  - intros (s1 & H1 & H2)%bind_returned_inv.
    replace (i + Datatypes.S count) with (Datatypes.S i + count) by lia.
    apply (IH (Datatypes.S i) s1); [apply (Hstep i s); done || lia| |done].
    intros j s2 s3 Hj. apply Hstep. lia.
Qed.

(** A loop all of whose iterations return, returns. *)
Lemma for_loop_returns body count i s :
  (∀ j s1, i ≤ j < i + count → ∃ s2, outcome_of (body j s1) = Returned s2) →
  ∃ s', outcome_of (for_loop count i body s) = Returned s'.
Proof.
  revert i s. induction count as [|count IH]; intros i s Hbody;
    cbn [for_loop].
  - by eexists.
  - destruct (Hbody i s ltac:(lia)) as [s1 H1].
    destruct (IH (Datatypes.S i) s1) as [s' Hs'].
    { intros j s2 Hj. apply Hbody. lia. }
    exists s'. destruct (body i s) as [[a|e] t]; [|done].
    unfold outcome_of in *. simpl in H1. injection H1 as ->.
    unfold bind. by destruct (for_loop _ _ _ _).
Qed.

(** A loop raises [e] when some iteration does and every iteration either
    returns or raises [e]. *)
Lemma for_loop_raises body count i s e :
  (∀ j s1, i ≤ j < i + count →
     (∃ s2, outcome_of (body j s1) = Returned s2)
     ∨ outcome_of (body j s1) = Raised e) →
  (∃ j, i ≤ j < i + count ∧ ∀ s1, outcome_of (body j s1) = Raised e) →
  outcome_of (for_loop count i body s) = Raised e.
Proof.
  revert i s. induction count as [|count IH]; intros i s Hall (j & Hj & Hraise);
    [lia|cbn [for_loop]].
  destruct (Hall i s ltac:(lia)) as [[s1 H1]|H1].
  - assert (j ≠ i) by (intros ->; rewrite Hraise in H1; done).
    assert (outcome_of (for_loop count (Datatypes.S i) body s1) = Raised e)
      as Hrest.
    { apply IH; [intros; apply Hall; lia|]. exists j. split; [lia|done]. }
    destruct (body i s) as [[a|e'] t]; [|done].
    unfold outcome_of in *. simpl in H1. injection H1 as ->.
    unfold bind. by destruct (for_loop _ _ _ _).
  - destruct (body i s) as [[a|e'] t]; by unfold outcome_of in *.
Qed.

End Loops.

(** ** Vectors written by a loop *)

Lemma length_new_vector n : length (new_vector n) = n.
Proof. apply length_replicate. Qed.

Lemma length_new_vector_na n : length (new_vector_na n) = n.
Proof. apply length_replicate. Qed.

(** A loop that, at each index [j] of a range, writes [x] at [j] when
    [w j = Some x] and writes nothing otherwise. *)
Lemma lookup_fold_write (w : nat → option RString) count i
  (v : CharacterVector) k :
  count = 0 ∨ i + count ≤ length v →
  fold_left (λ s j, match w j with Some x => <[j := x]> s | None => s end)
    (seq i count) v !! k
  = if decide (i ≤ k < i + count) then
      match w k with Some x => Some x | None => v !! k end
    else v !! k.
Proof.
  revert i v. induction count as [|count IH]; intros i v Hlen;
    cbn [seq fold_left].
  - case_decide; [lia|done].
  - assert (i < length v) by lia.
    rewrite IH by (destruct (w i); rewrite ?length_insert; lia).
    destruct (decide (k = i)) as [->|Hne].
    + rewrite decide_False, decide_True by lia.
      destruct (w i); [by rewrite list_lookup_insert_eq by lia|done].
    + destruct (w i); rewrite ?list_lookup_insert_ne by done;
        repeat case_decide; done || lia.
Qed.

Lemma length_fold_write (w : nat → option RString) (l : list nat)
  (v : CharacterVector) :
  length
    (fold_left (λ s j, match w j with Some x => <[j := x]> s | None => s end)
       l v)
  = length v.
Proof.
  revert v. induction l as [|j l IH]; intros v; [done|].
  cbn [fold_left]. rewrite IH. destruct (w j); by rewrite ?length_insert.
Qed.

(** Reading a vector through its indices. *)
Lemma fmap_seq_lookup_total {B : Type} (h : RString → B)
  (l : CharacterVector) i :
  (λ j, h (l !!! j)) <$> seq i (length l - i) = h <$> drop i l.
Proof.
  apply list_eq. intros k.
  rewrite !list_lookup_fmap, lookup_drop.
  destruct (decide (k < length l - i)) as [Hk|Hk].
  - rewrite lookup_seq_lt by done. simpl.
    destruct (lookup_lt_is_Some_2 l (i + k) ltac:(lia)) as [x Hx].
    rewrite Hx. simpl. by rewrite (list_lookup_total_correct _ _ _ Hx).
  - rewrite lookup_seq_ge by lia. by rewrite lookup_ge_None_2 by lia.
Qed.

(** ** The single-address parser *)

Lemma isna_toOptional x : isna x = toOptional x.
Proof. by destruct x. Qed.

Lemma slot_by_last_write_snoc name (pairs : address_parser_response_t)
  label value :
  slot_by_last_write name (pairs ++ [(label, value)])
  = if decide (label = name) then toOptional value
    else slot_by_last_write name pairs.
Proof.
  unfold slot_by_last_write. rewrite filter_app.
  rewrite filter_cons, filter_nil. simpl.
  case_decide.
  - by rewrite last_snoc.
  - by rewrite app_nil_r.
Qed.

(** One component: the slot of a known label is overwritten, an unknown
    label changes nothing. *)
Lemma parse_single_step_record (pairs : address_parser_response_t)
  label value :
  parse_single_step (address_record pairs) (label, value)
  = address_record (pairs ++ [(label, value)]).
Proof.
  unfold address_record, field_names. cbn [fmap list_fmap].
  rewrite !slot_by_last_write_snoc, <- !isna_toOptional.
  destruct (String.eqb_spec label "house") as [->|?]; [reflexivity|].
  destruct (String.eqb_spec label "house_number") as [->|?]; [reflexivity|].
  destruct (String.eqb_spec label "road") as [->|?]; [reflexivity|].
  destruct (String.eqb_spec label "suburb") as [->|?]; [reflexivity|].
  destruct (String.eqb_spec label "city_district") as [->|?]; [reflexivity|].
  destruct (String.eqb_spec label "city") as [->|?]; [reflexivity|].
  destruct (String.eqb_spec label "state_district") as [->|?]; [reflexivity|].
  destruct (String.eqb_spec label "state") as [->|?]; [reflexivity|].
  destruct (String.eqb_spec label "postal_code") as [->|?]; [reflexivity|].
  destruct (String.eqb_spec label "country") as [->|?]; [reflexivity|].
  rewrite !decide_False by done.
  unfold parse_single_step.
  repeat match goal with
  | H : label ≠ _ |- _ => apply String.eqb_neq in H; rewrite H; clear H
  end.
  reflexivity.
Qed.

(** The loop of [parse_single] computes the record of the specification. *)
Lemma parse_single_loop (pairs : address_parser_response_t) :
  fold_left parse_single_step pairs (new_vector_na 10) = address_record pairs.
Proof.
  induction pairs as [|lc pairs IH] using rev_ind; [done|].
  rewrite fold_left_app. cbn [fold_left]. rewrite IH.
  destruct lc. apply parse_single_step_record.
Qed.

Lemma parse_single_eq x :
  parse_single x
  = (Returned (address_record (parse_address x)), [call_parse_address x]).
Proof.
  unfold parse_single, do_parse_address, tell, bind, ret. simpl.
  by rewrite parse_single_loop.
Qed.

Lemma length_address_record (pairs : address_parser_response_t) :
  length (address_record pairs) = 10.
Proof. reflexivity. Qed.

(** C2. For every address string, [parse_single] makes one call to the
    parser and returns the 10-slot record of the pairs it emits: every slot
    is absent unless a pair carries the slot's field name, in which case it
    holds [toOptional] of the value of the last such pair; pairs with any
    other label leave the record as it is. *)
Theorem parse_single_fills_record x :
  parse_single x
  = (Returned (address_record (parse_address x)), [call_parse_address x])
  ∧ length (address_record (parse_address x)) = 10
  ∧ address_record [] = new_vector_na 10
  ∧ address_record (parse_address x)
    = (λ name,
         match last (filter (λ lc, lc.1 = name) (parse_address x)) with
         | Some (_, value) => toOptional value
         | None => NA_STRING
         end) <$> field_names.
Proof. split; [apply parse_single_eq|done]. Qed.

(** ** The batch normaliser *)

Lemma address_normalise_body_eq (addresses output : CharacterVector) i :
  (∀ j, interrupt_pending j = false) →
  address_normalise_body addresses i output
  = (Returned (<[i := normalise_element (addresses !!! i)]> output),
     expand_calls (addresses !!! i)).
Proof.
  intros Hq. unfold address_normalise_body.
  rewrite interrupt_checkpoint_quiet, bind_ret by done.
  destruct (addresses !!! i) as [a|]; [|done].
  unfold do_expand_address, tell, bind, ret, normalise_element. simpl.
  by destruct (expand_address a).
Qed.

(** A loop over a vector whose body writes [g j] at index [j]: what it
    returns, element by element, and the calls it makes. *)
Lemma for_range_writes (body : nat → CharacterVector → M CharacterVector)
  (g : nat → RString) (tr : nat → list engine_call) i0 n
  (init : CharacterVector) :
  length init = n →
  (∀ j s, i0 ≤ j < n → body j s = (Returned (<[j := g j]> s), tr j)) →
  ∃ out,
    for_range i0 n body init
    = (Returned out, concat (tr <$> seq i0 (n - i0)))
    ∧ length out = n
    ∧ ∀ k, out !! k = if decide (i0 ≤ k < n) then Some (g k) else init !! k.
Proof.
  intros Hlen Hbody. unfold for_range.
  rewrite (for_loop_pure body (λ j s, <[j := g j]> s) tr)
    by (intros; apply Hbody; lia).
  eexists. split; [done|].
  pose proof (length_fold_write (λ j, Some (g j)) (seq i0 (n - i0)) init)
    as Hl.
  pose proof (lookup_fold_write (λ j, Some (g j)) (n - i0) i0 init) as Hk.
  cbn beta in Hl, Hk. split; [by rewrite Hl|].
  intros k. rewrite Hk by lia.
  repeat case_decide; done || lia.
Qed.

Lemma address_normalise_eq (addresses : CharacterVector) :
  (∀ j, interrupt_pending j = false) →
  address_normalise addresses
  = (Returned (normalise_element <$> addresses),
     concat (expand_calls <$> addresses)).
Proof.
  intros Hq. unfold address_normalise.
  destruct (for_range_writes (address_normalise_body addresses)
    (λ j, normalise_element (addresses !!! j))
    (λ j, expand_calls (addresses !!! j))
    0 (length addresses) (new_vector (length addresses)))
    as (out & -> & Hlen & Hout).
  { apply length_new_vector. }
  { intros. by apply address_normalise_body_eq. }
  f_equal.
  - f_equal. apply list_eq. intros k. rewrite Hout, list_lookup_fmap.
    case_decide as Hk.
    + destruct (lookup_lt_is_Some_2 addresses k ltac:(lia)) as [x Hx].
      by rewrite Hx, (list_lookup_total_correct _ _ _ Hx).
    + rewrite lookup_ge_None_2 by (rewrite length_new_vector; lia).
      by rewrite lookup_ge_None_2 by lia.
  - by rewrite (fmap_seq_lookup_total expand_calls addresses 0).
Qed.

(** C1. For every batch passed to [address_normalise] and every non-missing
    element [i], in a run the host does not interrupt: the output at [i] is
    the first expansion the engine returns for that element, and the
    original string itself when the engine returns no expansion. *)
Theorem normalise_first_expansion_or_identity
  (addresses : CharacterVector) i a :
  (∀ j, interrupt_pending j = false) →
  addresses !! i = Some (Some a) →
  ∃ output,
    outcome_of (address_normalise addresses) = Returned output
    ∧ (expand_address a = [] → output !! i = Some (Some a))
    ∧ (∀ first rest,
         expand_address a = first :: rest → output !! i = Some (Some first)).
Proof.
  intros Hq Hi. rewrite address_normalise_eq by done.
  eexists. split; [done|].
  rewrite list_lookup_fmap, Hi. simpl.
  split; [by intros ->|by intros first rest ->].
Qed.

(** ** The batch parser *)

Lemma parse_addr_body_eq (addresses : CharacterVector) i cols :
  (∀ j, interrupt_pending j = false) →
  parse_addr_body addresses i cols
  = (Returned (parse_addr_update addresses i cols),
     parse_calls (addresses !!! i)).
Proof.
  intros Hq. unfold parse_addr_body, parse_addr_update.
  rewrite interrupt_checkpoint_quiet, bind_ret by done.
  destruct (addresses !!! i) as [a|]; [|done].
  by rewrite (bind_returned _ _ _ _ (parse_single_eq a)).
Qed.

Lemma column_list_update (addresses : CharacterVector) i c k :
  column_list (parse_addr_update addresses i c) !! k
  = (λ v, match parse_addr_write addresses k i with
          | Some x => <[i := x]> v
          | None => v
          end) <$> column_list c !! k.
Proof.
  unfold parse_addr_update, parse_addr_write.
  destruct (addresses !!! i) as [a|].
  - do 10 (destruct k as [|k]; [done|]). done.
  - by destruct (column_list c !! k).
Qed.

Lemma column_list_fold (addresses : CharacterVector) (l : list nat) c k :
  column_list (fold_left (λ c j, parse_addr_update addresses j c) l c) !! k
  = fold_left
      (λ v j, match parse_addr_write addresses k j with
              | Some x => <[j := x]> v
              | None => v
              end) l
    <$> column_list c !! k.
Proof.
  revert c. induction l as [|j l IH]; intros c; cbn [fold_left].
  - by destruct (column_list c !! k).
  - rewrite IH, column_list_update. by destruct (column_list c !! k).
Qed.

Lemma DataFrame_create_zip c :
  DataFrame_create c = zip field_names (column_list c).
Proof. reflexivity. Qed.

(** [parse_addr], when the host does not interrupt it: the columns carry
    the ten field names in order; below the index the counter starts from
    they keep the [NA_STRING] they were created with, from there on
    column [s] holds slot [s] of each element's record. *)
Lemma parse_addr_eq i0 (addresses : CharacterVector) :
  (∀ j, interrupt_pending j = false) →
  ∃ cols : list CharacterVector,
    parse_addr i0 addresses
    = (Returned (zip field_names cols),
       concat (parse_calls <$> drop i0 addresses))
    ∧ length cols = 10
    ∧ ∀ s col, cols !! s = Some col →
        length col = length addresses
        ∧ ∀ k, k < length addresses →
            col !! k
            = Some (if decide (i0 ≤ k) then field_of s (addresses !!! k)
                    else NA_STRING).
Proof.
  intros Hq. unfold parse_addr, for_range.
  set (n := length addresses).
  set (cols0 := Columns _ _ _ _ _ _ _ _ _ _).
  rewrite (bind_returned _ _ _ _
    (for_loop_pure (parse_addr_body addresses) (parse_addr_update addresses)
       (λ j, parse_calls (addresses !!! j)) (n - i0) i0 cols0
       (λ j s _, parse_addr_body_eq addresses j s Hq))).
  cbn [ret fst snd]. rewrite app_nil_r, DataFrame_create_zip.
  eexists. split.
  { f_equal. subst n. by rewrite (fmap_seq_lookup_total parse_calls). }
  split; [reflexivity|].
  intros s col. rewrite column_list_fold.
  assert (∀ v, column_list cols0 !! s = Some v → v = new_vector_na n) as Hinit.
  { intros v. do 10 (destruct s as [|s]; [by intros [= <-]|]). done. }
  destruct (column_list cols0 !! s) as [v|]; [|done].
  rewrite (Hinit v eq_refl). intros [= <-].
  split.
  { by rewrite length_fold_write, length_new_vector_na. }
  intros k Hk.
  rewrite lookup_fold_write by (rewrite length_new_vector_na; lia).
  unfold parse_addr_write, field_of, new_vector_na.
  rewrite lookup_replicate_2 by done.
  repeat case_decide; try lia; try done.
  by destruct (addresses !!! k).
Qed.

(** ** Access to a slot by a run-time index *)

Lemma vec_at_in_bounds (v : CharacterVector) (k : Z) :
  (0 ≤ k < Z.of_nat (length v))%Z → vec_at v k = ret (v !!! Z.to_nat k).
Proof.
  intros Hk. unfold vec_at.
  by rewrite (proj2 (Z.leb_le _ _)), (proj2 (Z.ltb_lt _ _)) by lia.
Qed.

Lemma vec_at_out_of_bounds (v : CharacterVector) (k : Z) :
  ¬ (0 ≤ k < Z.of_nat (length v))%Z →
  vec_at v k = raise subscript_out_of_bounds.
Proof.
  intros Hk. unfold vec_at.
  destruct (Z.leb_spec 0 k), (Z.ltb_spec k (Z.of_nat (length v)));
    simpl; done || lia.
Qed.

(** The access succeeds exactly when the index is in bounds. *)
Lemma vec_at_returns_iff (v : CharacterVector) (k : Z) :
  (∃ x, outcome_of (vec_at v k) = Returned x)
  ↔ (0 ≤ k < Z.of_nat (length v))%Z.
Proof.
  split.
  - intros [x Hx].
    destruct (decide (0 ≤ k < Z.of_nat (length v))%Z) as [|Hk]; [done|].
    by rewrite vec_at_out_of_bounds in Hx.
  - intros Hk. rewrite vec_at_in_bounds by done. by eexists.
Qed.

(** ** The field accessor *)

Lemma get_elements_body_eq (addresses output : CharacterVector) element i :
  (∀ j, interrupt_pending j = false) →
  (0 ≤ element ≤ 9)%Z →
  get_elements_body addresses element i output
  = (Returned (<[i := field_of (Z.to_nat element) (addresses !!! i)]> output),
     parse_calls (addresses !!! i)).
Proof.
  intros Hq He. unfold get_elements_body.
  rewrite interrupt_checkpoint_quiet, bind_ret by done.
  destruct (addresses !!! i) as [a|]; [|done].
  rewrite (bind_returned _ _ _ _ (parse_single_eq a)).
  rewrite vec_at_in_bounds by (rewrite length_address_record; lia).
  by rewrite bind_ret.
Qed.

(** [get_elements] with a field index in range, when the host does not
    interrupt it: below the index the counter starts from the output keeps
    the blank strings it was created with, from there on it holds the
    requested slot of each element's record. *)
Lemma get_elements_eq i0 (addresses : CharacterVector) element :
  (∀ j, interrupt_pending j = false) →
  (0 ≤ element ≤ 9)%Z →
  ∃ out,
    get_elements i0 addresses element
    = (Returned out, concat (parse_calls <$> drop i0 addresses))
    ∧ length out = length addresses
    ∧ ∀ k, k < length addresses →
        out !! k
        = Some (if decide (i0 ≤ k)
                then field_of (Z.to_nat element) (addresses !!! k)
                else Some "").
Proof.
  intros Hq He. unfold get_elements.
  destruct (for_range_writes (get_elements_body addresses element)
    (λ j, field_of (Z.to_nat element) (addresses !!! j))
    (λ j, parse_calls (addresses !!! j))
    i0 (length addresses) (new_vector (length addresses)))
    as (out & -> & Hlen & Hout).
  { apply length_new_vector. }
  { intros. by apply get_elements_body_eq. }
  exists out. split; [|split; [done|]].
  - by rewrite (fmap_seq_lookup_total parse_calls).
  - intros k Hk. rewrite Hout. unfold new_vector.
    rewrite lookup_replicate_2 by done.
    repeat case_decide; done || lia.
Qed.

(** ** std::string::find and std::string::replace *)

Lemma index_le (needle s : string) n p :
  String.index n needle s = Some p → p ≤ String.length s.
Proof.
  revert n p. induction s as [|c s IH]; intros n p;
    cbn [String.index String.length].
  - destruct n, needle; intros Hp; try done. injection Hp as <-. lia.
  - destruct n as [|n].
    + destruct (String.prefix needle (String c s)); [intros [= <-]; lia|].
      destruct (String.index 0 needle s) as [q|] eqn:Hq; [|done].
      intros [= <-]. specialize (IH 0 q Hq). lia.
    + destruct (String.index n needle s) as [q|] eqn:Hq; [|done].
      intros [= <-]. specialize (IH n q Hq). lia.
Qed.

Lemma std_replace_raised s pos len str e :
  outcome_of (std_replace s pos len str) = Raised e → e = std_out_of_range.
Proof.
  unfold std_replace. destruct (_ <? _)%N; [|done].
  unfold outcome_of, raise. simpl. by intros [= <-].
Qed.

Lemma std_replace_calls s pos len str :
  calls_of (std_replace s pos len str) = [].
Proof. unfold std_replace. by destruct (_ <? _)%N. Qed.

(** Replacing at a position that [find] found cannot throw. *)
Lemma std_replace_found s value len str p :
  String.index 0 value s = Some p →
  ∃ r, std_replace s (std_find s value) len str = ret r.
Proof.
  intros Hp. unfold std_replace, std_find. rewrite Hp.
  apply index_le in Hp.
  rewrite (proj2 (N.ltb_ge _ _)) by lia. by eexists.
Qed.

(** Replacing at [npos], which is what [find] returns when the text is not
    there, throws. *)
Lemma std_replace_not_found s value len str :
  String.index 0 value s = None →
  (N.of_nat (String.length s) < npos)%N →
  std_replace s (std_find s value) len str = raise std_out_of_range.
Proof.
  intros Hp Hsize. unfold std_replace, std_find. rewrite Hp.
  by rewrite (proj2 (N.ltb_lt _ _)) by done.
Qed.

(** ** Loops that fill an output vector element by element *)

Lemma bind_assoc {A B C : Type} (m : M A) (f : A → M B) (g : B → M C) :
  bind (bind m f) g = bind m (λ x, bind (f x) g).
Proof.
  destruct m as [[a|e] t]; [|done]. unfold bind at 2 3.
  destruct (f a) as [[b|e] t']; [|done]. unfold bind.
  destruct (g b) as [r t'']. by rewrite app_assoc.
Qed.

Lemma for_loop_ext {S : Type} (body body' : nat → S → M S) count i s :
  (∀ j s1, body j s1 = body' j s1) →
  for_loop count i body s = for_loop count i body' s.
Proof.
  intros Hext. revert i s. induction count as [|count IH]; intros i s; [done|].
  cbn [for_loop]. rewrite Hext. unfold bind.
  destruct (body' i s) as [[s1|e] t]; [|done]. by rewrite IH.
Qed.

Lemma elementwise_body_returned elem i (s1 s2 : CharacterVector) :
  outcome_of (elementwise_body elem i s1) = Returned s2 →
  ∃ x, outcome_of (elem i) = Returned x ∧ s2 = <[i := x]> s1.
Proof.
  unfold elementwise_body.
  intros (_ & _ & (x & Hx & H)%bind_returned_inv)%bind_returned_inv.
  exists x. split; [done|]. unfold outcome_of, ret in H. simpl in H.
  by injection H.
Qed.

Lemma elementwise_body_raised elem i (s1 : CharacterVector) e :
  outcome_of (elementwise_body elem i s1) = Raised e →
  e = user_interrupt ∨ outcome_of (elem i) = Raised e.
Proof.
  unfold elementwise_body.
  intros [H|(_ & _ & [H|(x & _ & H)]%bind_raised_inv)]%bind_raised_inv.
  - left. destruct (interrupt_checkpoint_cases i) as [Hc|Hc];
      rewrite Hc in H; unfold outcome_of, ret, raise in H; simpl in H;
      congruence.
  - by right.
  - by unfold outcome_of, ret in H.
Qed.

Lemma elementwise_body_quiet elem i (s : CharacterVector) :
  (∀ j, interrupt_pending j = false) →
  elementwise_body elem i s
  = (match outcome_of (elem i) with
     | Returned x => Returned (<[i := x]> s)
     | Raised e => Raised e
     end, calls_of (elem i)).
Proof.
  intros Hq. unfold elementwise_body.
  rewrite interrupt_checkpoint_quiet, bind_ret by done.
  unfold bind, ret, outcome_of, calls_of.
  destruct (elem i) as [[x|e] t]; simpl; [by rewrite app_nil_r|done].
Qed.

(** What an element-by-element loop returns: the vector keeps its length
    and what it held below the start index, and holds from there on what
    the element computations returned. *)
Lemma elementwise_returned elem i0 (init out : CharacterVector) :
  outcome_of (for_range i0 (length init) (elementwise_body elem) init)
  = Returned out →
  length out = length init
  ∧ (∀ k, k < i0 → out !! k = init !! k)
  ∧ (∀ k, i0 ≤ k < length init →
       ∃ x, outcome_of (elem k) = Returned x ∧ out !! k = Some x).
Proof.
  unfold for_range. intros Hout.
  pose (P := λ j (s : list (option string)),
    length s = length init
    ∧ (∀ k, k < i0 → s !! k = init !! k)
    ∧ (∀ k, i0 ≤ k < j →
         ∃ x, outcome_of (elem k) = Returned x ∧ s !! k = Some x)).
  assert (P (i0 + (length init - i0)) out) as (Hl & Hlow & Hhigh).
  { eapply (for_loop_returned_inv_at P); [| |exact Hout].
    { split; [done|]. split; [done|]. intros k Hk. lia. }
    intros j s1 s2 Hj (Hl & Hlow & Hhigh) (x & Hx & ->)%elementwise_body_returned.
    split; [by rewrite length_insert|]. split.
    - intros k Hk. rewrite list_lookup_insert_ne by lia. by apply Hlow.
    - intros k Hk. destruct (decide (k = j)) as [->|Hne].
      + exists x. split; [done|]. by rewrite list_lookup_insert_eq by lia.
      + rewrite list_lookup_insert_ne by done. apply Hhigh. lia. }
  repeat split; [done..|]. intros k Hk. apply Hhigh. lia.
Qed.

(** What an element-by-element loop raises: the interrupt, or what one of
    the element computations raises. *)
Lemma elementwise_raised elem i0 n (init : CharacterVector) e :
  outcome_of (for_range i0 n (elementwise_body elem) init) = Raised e →
  e = user_interrupt ∨ ∃ k, outcome_of (elem k) = Raised e.
Proof.
  apply (for_loop_raised_inv
           (λ e, e = user_interrupt ∨ ∃ k, outcome_of (elem k) = Raised e)).
  intros j s1 e' [->|H]%elementwise_body_raised; eauto.
Qed.

(** An element-by-element loop that is not interrupted returns when all
    the element computations it reaches do. *)
Lemma elementwise_returns elem i0 n (init : CharacterVector) :
  (∀ j, interrupt_pending j = false) →
  (∀ k, i0 ≤ k < n → ∃ x, outcome_of (elem k) = Returned x) →
  ∃ out, outcome_of (for_range i0 n (elementwise_body elem) init)
         = Returned out.
Proof.
  intros Hq Helem. apply for_loop_returns. intros j s1 Hj.
  rewrite elementwise_body_quiet by done.
  destruct (Helem j ltac:(lia)) as [x ->]. by eexists.
Qed.

(** An element-by-element loop that is not interrupted raises [e] when one
    of the element computations it reaches does and the others return or
    raise [e] too. *)
Lemma elementwise_raises elem i0 n (init : CharacterVector) e :
  (∀ j, interrupt_pending j = false) →
  (∀ k, i0 ≤ k < n →
     (∃ x, outcome_of (elem k) = Returned x)
     ∨ outcome_of (elem k) = Raised e) →
  (∃ k, i0 ≤ k < n ∧ outcome_of (elem k) = Raised e) →
  outcome_of (for_range i0 n (elementwise_body elem) init) = Raised e.
Proof.
  intros Hq Hall (k & Hk & Hraise). apply for_loop_raises.
  - intros j s1 Hj. rewrite elementwise_body_quiet by done.
    destruct (Hall j ltac:(lia)) as [[x ->]| ->]; [left; by eexists|by right].
  - exists k. split; [lia|]. intros s1.
    rewrite elementwise_body_quiet by done. by rewrite Hraise.
Qed.

(** ** The element computations *)

Lemma get_element_in_range element a :
  (0 ≤ element ≤ 9)%Z →
  get_element element a
  = (Returned (field_of (Z.to_nat element) a), parse_calls a).
Proof.
  intros He. destruct a as [a|]; [|done]. unfold get_element.
  rewrite (bind_returned _ _ _ _ (parse_single_eq a)).
  by rewrite vec_at_in_bounds by (rewrite length_address_record; lia).
Qed.

Lemma get_element_out_of_range element a :
  ¬ (0 ≤ element ≤ 9)%Z →
  get_element element (Some a)
  = (Raised subscript_out_of_bounds, [call_parse_address a]).
Proof.
  intros He. unfold get_element.
  rewrite (bind_returned _ _ _ _ (parse_single_eq a)).
  by rewrite vec_at_out_of_bounds by (rewrite length_address_record; lia).
Qed.

Lemma replace_field_in_range a element replacement :
  (0 ≤ element ≤ 9)%Z →
  replace_field a element replacement
  = (match address_record (parse_address a) !!! Z.to_nat element with
     | None => Returned (Some a)
     | Some value =>
         match outcome_of (std_replace a (std_find a value)
                             (N.of_nat (String.length value)) replacement) with
         | Returned x => Returned (Some x)
         | Raised e => Raised e
         end
     end, [call_parse_address a]).
Proof.
  intros He. unfold replace_field.
  rewrite (bind_returned _ _ _ _ (parse_single_eq a)).
  rewrite vec_at_in_bounds by (rewrite length_address_record; lia).
  rewrite bind_ret.
  destruct (address_record (parse_address a) !!! Z.to_nat element)
    as [value|]; [|done].
  pose proof (std_replace_calls a (std_find a value)
                (N.of_nat (String.length value)) replacement) as Hc.
  unfold calls_of, outcome_of in *.
  destruct (std_replace _ _ _ _) as [[x|e] t]; simpl in *; by subst.
Qed.

Lemma replace_field_out_of_range a element replacement :
  ¬ (0 ≤ element ≤ 9)%Z →
  replace_field a element replacement
  = (Raised subscript_out_of_bounds, [call_parse_address a]).
Proof.
  intros He. unfold replace_field.
  rewrite (bind_returned _ _ _ _ (parse_single_eq a)).
  by rewrite vec_at_out_of_bounds by (rewrite length_address_record; lia).
Qed.

Lemma replace_field_raised a element replacement e :
  outcome_of (replace_field a element replacement) = Raised e →
  e = std_out_of_range
  ∨ (e = subscript_out_of_bounds ∧ ¬ (0 ≤ element ≤ 9)%Z).
Proof.
  destruct (decide (0 ≤ element ≤ 9)%Z) as [He|He].
  - rewrite replace_field_in_range by done. unfold outcome_of at 1. simpl.
    destruct (_ !!! _) as [value|]; [|done].
    destruct (outcome_of (std_replace _ _ _ _)) as [x|e'] eqn:Hr; [done|].
    intros [= <-]. left. by eapply std_replace_raised.
  - rewrite replace_field_out_of_range by done. intros [= <-]. by right.
Qed.

Lemma set_element_raised element a replacement e :
  outcome_of (set_element element a replacement) = Raised e →
  e = std_out_of_range
  ∨ (e = subscript_out_of_bounds ∧ ¬ (0 ≤ element ≤ 9)%Z).
Proof.
  destruct a as [a|]; [|done]. destruct replacement as [r|]; [|done].
  apply replace_field_raised.
Qed.

Lemma set_element_returns element a replacement :
  (0 ≤ element ≤ 9)%Z →
  field_found element a →
  ∃ x, outcome_of (set_element element a replacement) = Returned x.
Proof.
  intros He Hfound. destruct a as [a|]; [|by eexists].
  destruct replacement as [r|]; [|by eexists]. simpl.
  rewrite replace_field_in_range by done. unfold outcome_of at 1. simpl.
  unfold field_found, field_of in Hfound.
  destruct (_ !!! _) as [value|]; [|by eexists].
  destruct Hfound as [p Hp].
  destruct (std_replace_found a value (N.of_nat (String.length value)) r p Hp)
    as [x ->].
  by eexists.
Qed.

Lemma set_element_out_of_range element a replacement :
  ¬ (0 ≤ element ≤ 9)%Z →
  (∃ x, outcome_of (set_element element a replacement) = Returned x)
  ∨ outcome_of (set_element element a replacement)
    = Raised subscript_out_of_bounds.
Proof.
  intros He. destruct a as [a|]; [|left; by eexists].
  destruct replacement as [r|]; [|left; by eexists].
  right. simpl. by rewrite replace_field_out_of_range.
Qed.

(** ** The loop bodies are element by element *)

Lemma address_normalise_body_elementwise (addresses output : CharacterVector)
  i :
  address_normalise_body addresses i output
  = elementwise_body (λ j, normalise_run (addresses !!! j)) i output.
Proof.
  unfold address_normalise_body, elementwise_body.
  past_checkpoint i. destruct (addresses !!! i) as [a|]; [|done].
  unfold normalise_run. rewrite bind_assoc.
  unfold do_expand_address, tell, bind, ret. simpl.
  by destruct (expand_address a).
Qed.

Lemma get_elements_body_elementwise (addresses output : CharacterVector)
  element i :
  get_elements_body addresses element i output
  = elementwise_body (λ j, get_element element (addresses !!! j)) i output.
Proof.
  unfold get_elements_body, elementwise_body.
  past_checkpoint i. destruct (addresses !!! i) as [a|]; [|done].
  unfold get_element. by rewrite bind_assoc.
Qed.

Lemma set_elements_body_single_elementwise
  (addresses output : CharacterVector) replacement element i :
  set_elements_body_single addresses replacement element i output
  = elementwise_body
      (λ j, set_element element (addresses !!! j) (Some replacement)) i output.
Proof.
  unfold set_elements_body_single, elementwise_body.
  past_checkpoint i. by destruct (addresses !!! i) as [a|].
Qed.

Lemma set_elements_body_each_elementwise
  (addresses new_value output : CharacterVector) element i :
  set_elements_body_each addresses new_value element i output
  = elementwise_body
      (λ j, set_element element (addresses !!! j) (new_value !!! j)) i output.
Proof.
  unfold set_elements_body_each, elementwise_body.
  past_checkpoint i. destruct (addresses !!! i) as [a|]; [|done].
  by destruct (new_value !!! i).
Qed.

(** ** The field mutator *)

Lemma set_elements_unfold i0 (addresses new_value : CharacterVector) element :
  set_elements i0 addresses new_value element
  = if (length new_value =? 1)%nat then
      match new_value !!! 0 with
      | None => ret addresses
      | Some _ => set_elements_loop i0 addresses new_value element
      end
    else if (length new_value =? length addresses)%nat then
      set_elements_loop i0 addresses new_value element
    else raise (rcpp_stop length_mismatch_message).
Proof.
  unfold set_elements, set_elements_loop, for_range.
  destruct (length new_value =? 1)%nat eqn:H1.
  - destruct (new_value !!! 0) as [r|] eqn:Hr; [|done].
    apply for_loop_ext. intros j s1.
    rewrite set_elements_body_single_elementwise.
    unfold elementwise_body, replacement_at. by rewrite H1, Hr.
  - destruct (length new_value =? length addresses)%nat; [|done].
    apply for_loop_ext. intros j s1.
    rewrite set_elements_body_each_elementwise.
    unfold elementwise_body, replacement_at. by rewrite H1.
Qed.

Lemma set_elements_loop_not_stop i0 (addresses new_value : CharacterVector)
  element msg :
  outcome_of (set_elements_loop i0 addresses new_value element)
  ≠ Raised (rcpp_stop msg).
Proof.
  intros [|[k [|[? _]]%set_element_raised]]%elementwise_raised; done.
Qed.

(** C6. [set_elements] stops with the length-mismatch error exactly when the
    number of new values is neither 1 nor the number of addresses; and
    whenever it does, that is all it has done: no engine call has been made
    and no output exists. *)
Theorem set_elements_length_mismatch i0
  (addresses new_value : CharacterVector) element :
  (outcome_of (set_elements i0 addresses new_value element)
   = Raised (rcpp_stop length_mismatch_message)
   ↔ length new_value ≠ 1 ∧ length new_value ≠ length addresses)
  ∧ (outcome_of (set_elements i0 addresses new_value element)
     = Raised (rcpp_stop length_mismatch_message)
     ↔ set_elements i0 addresses new_value element
       = (Raised (rcpp_stop length_mismatch_message), [])).
Proof.
  rewrite set_elements_unfold.
  destruct (Nat.eqb_spec (length new_value) 1) as [H1|H1].
  - assert (∀ m : M (list (option string)),
      m = match new_value !!! 0 with
          | None => ret addresses
          | Some _ => set_elements_loop i0 addresses new_value element
          end →
      outcome_of m ≠ Raised (rcpp_stop length_mismatch_message)) as Hno.
    { intros m ->. destruct (new_value !!! 0); [|done].
      apply set_elements_loop_not_stop. }
    specialize (Hno _ eq_refl).
    split; split; try done; try (intros []; done).
    intros Heq. by rewrite Heq in Hno.
  - destruct (Nat.eqb_spec (length new_value) (length addresses)) as [Hn|Hn].
    + pose proof (set_elements_loop_not_stop i0 addresses new_value element
                    length_mismatch_message) as Hno.
      split; split; try done; try (intros []; done).
      intros Heq. by rewrite Heq in Hno.
    + by repeat split.
Qed.

Lemma set_elements_returned i0 (addresses new_value : CharacterVector) element
  out :
  outcome_of (set_elements i0 addresses new_value element) = Returned out →
  length out = length addresses
  ∧ ∀ k a, i0 ≤ k → addresses !! k = Some a →
      outcome_of (set_element element a (replacement_at new_value k))
      = Returned (out !!! k).
Proof.
  rewrite set_elements_unfold.
  assert (outcome_of (set_elements_loop i0 addresses new_value element)
          = Returned out →
          length out = length addresses
          ∧ ∀ k a, i0 ≤ k → addresses !! k = Some a →
              outcome_of (set_element element a (replacement_at new_value k))
              = Returned (out !!! k)) as Hloop.
  { unfold set_elements_loop.
    rewrite <- (length_new_vector (length addresses)) at 1.
    intros (Hl & _ & Hhigh)%elementwise_returned.
    rewrite length_new_vector in *. split; [done|].
    intros k a Hk Ha.
    destruct (Hhigh k) as (x & Hx & Hout).
    { split; [done|]. by eapply lookup_lt_Some. }
    rewrite (list_lookup_total_correct _ _ _ Ha) in Hx.
    by rewrite (list_lookup_total_correct _ _ _ Hout). }
  destruct (Nat.eqb_spec (length new_value) 1) as [H1|H1].
  - destruct (new_value !!! 0) as [r|] eqn:Hr; [done|].
    intros [= <-]. split; [done|]. intros k a _ Ha.
    unfold replacement_at. rewrite (proj2 (Nat.eqb_eq _ _) H1), Hr.
    rewrite (list_lookup_total_correct _ _ _ Ha). by destruct a.
  - destruct (length new_value =? length addresses)%nat; done.
Qed.

Lemma set_elements_raised i0 (addresses new_value : CharacterVector) element
  e :
  outcome_of (set_elements i0 addresses new_value element) = Raised e →
  e = rcpp_stop length_mismatch_message
  ∨ e = user_interrupt
  ∨ e = std_out_of_range
  ∨ (e = subscript_out_of_bounds ∧ ¬ (0 ≤ element ≤ 9)%Z).
Proof.
  rewrite set_elements_unfold.
  assert (outcome_of (set_elements_loop i0 addresses new_value element)
          = Raised e →
          e = user_interrupt ∨ e = std_out_of_range
          ∨ (e = subscript_out_of_bounds ∧ ¬ (0 ≤ element ≤ 9)%Z)) as Hloop.
  { intros [->|[k [->|[-> ?]]%set_element_raised]]%elementwise_raised; auto. }
  destruct (length new_value =? 1)%nat.
  - destruct (new_value !!! 0); [auto|done].
  - destruct (length new_value =? length addresses)%nat; [auto|].
    intros [= <-]. by left.
Qed.

Lemma set_elements_returns i0 (addresses new_value : CharacterVector) element :
  (∀ j, interrupt_pending j = false) →
  (0 ≤ element ≤ 9)%Z →
  length new_value = 1 ∨ length new_value = length addresses →
  Forall (field_found element) addresses →
  ∃ out, outcome_of (set_elements i0 addresses new_value element)
         = Returned out.
Proof.
  intros Hq He Hlen Hfound. rewrite set_elements_unfold.
  assert (∃ out, outcome_of (set_elements_loop i0 addresses new_value element)
                 = Returned out) as Hloop.
  { apply elementwise_returns; [done|]. intros k Hk.
    apply set_element_returns; [done|].
    destruct (lookup_lt_is_Some_2 addresses k ltac:(lia)) as [a Ha].
    rewrite (list_lookup_total_correct _ _ _ Ha).
    by eapply (proj1 (Forall_lookup _ _) Hfound). }
  destruct (Nat.eqb_spec (length new_value) 1).
  - destruct (new_value !!! 0); [done|by eexists].
  - destruct (Nat.eqb_spec (length new_value) (length addresses)); [done|lia].
Qed.

Lemma set_elements_unchecked i0 (addresses new_value : CharacterVector)
  element :
  (∀ j, interrupt_pending j = false) →
  ¬ (0 ≤ element ≤ 9)%Z →
  length new_value = 1 ∨ length new_value = length addresses →
  (∃ k a r, i0 ≤ k ∧ addresses !! k = Some (Some a)
            ∧ replacement_at new_value k = Some r) →
  outcome_of (set_elements i0 addresses new_value element)
  = Raised subscript_out_of_bounds.
Proof.
  intros Hq He Hlen (k & a & r & Hk & Ha & Hr). rewrite set_elements_unfold.
  assert (outcome_of (set_elements_loop i0 addresses new_value element)
          = Raised subscript_out_of_bounds) as Hloop.
  { apply elementwise_raises; [done| |].
    - intros. by apply set_element_out_of_range.
    - exists k. split; [split; [done|by eapply lookup_lt_Some]|].
      rewrite (list_lookup_total_correct _ _ _ Ha), Hr. simpl.
      by rewrite replace_field_out_of_range. }
  destruct (Nat.eqb_spec (length new_value) 1) as [H1|H1].
  - unfold replacement_at in Hr. rewrite (proj2 (Nat.eqb_eq _ _) H1) in Hr.
    by rewrite Hr.
  - destruct (Nat.eqb_spec (length new_value) (length addresses)); [done|lia].
Qed.

(** ** The field accessor, interrupted or not *)

Lemma get_elements_elementwise i0 (addresses : CharacterVector) element :
  get_elements i0 addresses element
  = for_range i0 (length addresses)
      (elementwise_body (λ j, get_element element (addresses !!! j)))
      (new_vector (length addresses)).
Proof.
  unfold get_elements, for_range. apply for_loop_ext.
  intros. apply get_elements_body_elementwise.
Qed.

Lemma get_elements_returned i0 (addresses : CharacterVector) element out :
  outcome_of (get_elements i0 addresses element) = Returned out →
  length out = length addresses
  ∧ ∀ k a, i0 ≤ k → addresses !! k = Some a →
      outcome_of (get_element element a) = Returned (out !!! k).
Proof.
  rewrite get_elements_elementwise.
  rewrite <- (length_new_vector (length addresses)) at 1.
  intros (Hl & _ & Hhigh)%elementwise_returned.
  rewrite length_new_vector in *. split; [done|].
  intros k a Hk Ha.
  destruct (Hhigh k) as (x & Hx & Hout).
  { split; [done|]. by eapply lookup_lt_Some. }
  rewrite (list_lookup_total_correct _ _ _ Ha) in Hx.
  by rewrite (list_lookup_total_correct _ _ _ Hout).
Qed.

Lemma get_element_raised element a e :
  outcome_of (get_element element a) = Raised e →
  e = subscript_out_of_bounds ∧ ¬ (0 ≤ element ≤ 9)%Z.
Proof.
  destruct (decide (0 ≤ element ≤ 9)%Z) as [He|He].
  - by rewrite get_element_in_range.
  - destruct a as [a|]; [|done]. rewrite get_element_out_of_range by done.
    by intros [= <-].
Qed.

Lemma get_elements_raised i0 (addresses : CharacterVector) element e :
  outcome_of (get_elements i0 addresses element) = Raised e →
  e = user_interrupt
  ∨ (e = subscript_out_of_bounds ∧ ¬ (0 ≤ element ≤ 9)%Z).
Proof.
  rewrite get_elements_elementwise.
  intros [->|[k ?%get_element_raised]]%elementwise_raised; auto.
Qed.

Lemma get_elements_unchecked i0 (addresses : CharacterVector) element :
  (∀ j, interrupt_pending j = false) →
  ¬ (0 ≤ element ≤ 9)%Z →
  (∃ k a, i0 ≤ k ∧ addresses !! k = Some (Some a)) →
  outcome_of (get_elements i0 addresses element)
  = Raised subscript_out_of_bounds.
Proof.
  intros Hq He (k & a & Hk & Ha). rewrite get_elements_elementwise.
  apply elementwise_raises; [done| |].
  - intros j Hj. destruct (addresses !!! j) as [x|].
    + right. by rewrite get_element_out_of_range.
    + left. by eexists.
  - exists k. split; [split; [done|by eapply lookup_lt_Some]|].
    rewrite (list_lookup_total_correct _ _ _ Ha).
    by rewrite get_element_out_of_range.
Qed.

(** ** The batch normaliser and the batch parser, interrupted or not *)

Lemma normalise_run_eq a :
  normalise_run a = (Returned (normalise_element a), expand_calls a).
Proof.
  destruct a as [a|]; [|done].
  unfold normalise_run, normalise_element, do_expand_address, tell, bind, ret.
  simpl. by destruct (expand_address a).
Qed.

Lemma address_normalise_returned (addresses : CharacterVector) out :
  outcome_of (address_normalise addresses) = Returned out →
  out = normalise_element <$> addresses.
Proof.
  assert (address_normalise addresses
          = for_range 0 (length addresses)
              (elementwise_body (λ j, normalise_run (addresses !!! j)))
              (new_vector (length addresses))) as ->.
  { unfold address_normalise, for_range. apply for_loop_ext.
    intros. apply address_normalise_body_elementwise. }
  rewrite <- (length_new_vector (length addresses)) at 1.
  intros (Hl & _ & Hhigh)%elementwise_returned.
  rewrite length_new_vector in *.
  apply list_eq. intros k. rewrite list_lookup_fmap.
  destruct (decide (k < length addresses)) as [Hk|Hk].
  - destruct (Hhigh k ltac:(lia)) as (x & Hx & ->).
    destruct (lookup_lt_is_Some_2 addresses k Hk) as [a Ha].
    rewrite (list_lookup_total_correct _ _ _ Ha), normalise_run_eq in Hx.
    rewrite Ha. simpl. by injection Hx as ->.
  - by rewrite !lookup_ge_None_2 by lia.
Qed.

Lemma parse_addr_body_returned (addresses : CharacterVector) i c1 c2 :
  outcome_of (parse_addr_body addresses i c1) = Returned c2 →
  c2 = parse_addr_update addresses i c1.
Proof.
  unfold parse_addr_body, parse_addr_update.
  past_checkpoint i. destruct (addresses !!! i) as [a|].
  - rewrite (bind_returned _ _ _ _ (parse_single_eq a)).
    unfold outcome_of. simpl. by intros [= <-].
  - unfold outcome_of. simpl. by intros [= <-].
Qed.

(** Whenever [parse_addr] returns: the same description as when it is not
    interrupted. *)
Lemma parse_addr_returned i0 (addresses : CharacterVector) df :
  outcome_of (parse_addr i0 addresses) = Returned df →
  ∃ cols : list CharacterVector,
    df = zip field_names cols
    ∧ length cols = 10
    ∧ ∀ s col, cols !! s = Some col →
        length col = length addresses
        ∧ ∀ k, k < length addresses →
            col !! k
            = Some (if decide (i0 ≤ k) then field_of s (addresses !!! k)
                    else NA_STRING).
Proof.
  unfold parse_addr, for_range.
  set (n := length addresses).
  set (cols0 := Columns _ _ _ _ _ _ _ _ _ _).
  intros (cols & Hloop & Hdf)%bind_returned_inv.
  unfold outcome_of, ret in Hdf. simpl in Hdf. injection Hdf as <-.
  exists (column_list cols). split; [done|]. split; [done|].
  pose (P := λ j c,
    ∀ s (col : list (option string)), column_list c !! s = Some col →
      length col = n
      ∧ ∀ k, k < n →
          col !! k
          = Some (if decide (i0 ≤ k < j) then field_of s (addresses !!! k)
                  else NA_STRING)).
  assert (P (i0 + (n - i0)) cols) as HP.
  { eapply (for_loop_returned_inv_at P); [| |exact Hloop].
    - intros s col Hcol.
      assert (col = new_vector_na n) as ->.
      { revert Hcol. do 10 (destruct s as [|s]; [by intros [= <-]|]). done. }
      split; [apply length_new_vector_na|]. intros k Hk.
      unfold new_vector_na. rewrite lookup_replicate_2 by done.
      case_decide; [lia|done].
    - intros j c1 c2 Hj HP1 ->%parse_addr_body_returned s col.
      rewrite column_list_update.
      destruct (column_list c1 !! s) as [col1|] eqn:Hcol1; [|done].
      destruct (HP1 s col1 Hcol1) as [Hl1 Hk1]. simpl. intros [= <-].
      unfold parse_addr_write.
      destruct (addresses !!! j) as [a|] eqn:Ha.
      + split; [by rewrite length_insert|]. intros k Hk.
        destruct (decide (k = j)) as [->|Hne].
        * rewrite list_lookup_insert_eq by lia. rewrite Ha. simpl.
          by rewrite decide_True by lia.
        * rewrite list_lookup_insert_ne by done. rewrite Hk1 by done.
          repeat case_decide; done || lia.
      + split; [done|]. intros k Hk. rewrite Hk1 by done.
        destruct (decide (k = j)) as [->|Hne].
        * rewrite Ha. simpl. by repeat case_decide.
        * repeat case_decide; done || lia. }
  intros s col Hcol. destruct (HP s col Hcol) as [Hl Hk].
  split; [done|]. intros k Hlt. rewrite Hk by done.
  repeat case_decide; done || lia.
Qed.

(** ** Missing values *)

(** X15. Where the missing-value sentinel goes through: at every index
    for [address_normalise] and [parse_addr], and from the index the
    counter starts from for [get_elements] and [set_elements]. *)
Lemma missing_propagates_where_visited i0
  (addresses new_value : CharacterVector) element k :
  addresses !! k = Some NA_STRING →
  (∀ out, outcome_of (address_normalise addresses) = Returned out →
     out !! k = Some NA_STRING)
  ∧ (∀ df name col, outcome_of (parse_addr i0 addresses) = Returned df →
       (name, col) ∈ df → col !! k = Some NA_STRING)
  ∧ (∀ out, outcome_of (get_elements i0 addresses element) = Returned out →
       i0 ≤ k → out !! k = Some NA_STRING)
  ∧ (∀ out,
       outcome_of (set_elements i0 addresses new_value element) = Returned out →
       i0 ≤ k → out !! k = Some NA_STRING).
Proof.
  intros Hk. pose proof (lookup_lt_Some _ _ _ Hk) as Hlt.
  split; [|split; [|split]].
  - intros out ->%address_normalise_returned.
    by rewrite list_lookup_fmap, Hk.
  - intros df name col (cols & -> & Hcols & Hcol)%parse_addr_returned
      (s & Hs)%list_elem_of_lookup_1.
    apply lookup_zip_with_Some in Hs as (name' & col' & [= <- <-] & _ & Hs).
    destruct (Hcol s col Hs) as [_ Hat]. rewrite Hat by done.
    rewrite (list_lookup_total_correct _ _ _ Hk). by case_decide.
  - intros out [Hl Hat]%get_elements_returned Hi0.
    specialize (Hat k _ Hi0 Hk). unfold outcome_of, get_element in Hat.
    simpl in Hat. injection Hat as Hat.
    rewrite list_lookup_lookup_total_lt by lia. by rewrite <- Hat.
  - intros out [Hl Hat]%set_elements_returned Hi0.
    specialize (Hat k _ Hi0 Hk). unfold outcome_of, set_element in Hat.
    simpl in Hat. injection Hat as Hat.
    rewrite list_lookup_lookup_total_lt by lia. by rewrite <- Hat.
Qed.

(** Below the index the counter starts from, [get_elements] leaves the
    blank string the output was created with, whatever the input holds. *)
Lemma get_elements_below_start i0 (addresses : CharacterVector) element k :
  (∀ j, interrupt_pending j = false) →
  (0 ≤ element ≤ 9)%Z →
  k < i0 → k < length addresses →
  ∃ out, outcome_of (get_elements i0 addresses element) = Returned out
         ∧ out !! k = Some (Some "").
Proof.
  intros Hq He Hk Hlt.
  destruct (get_elements_eq i0 addresses element Hq He) as (out & -> & _ & Hat).
  exists out. split; [done|]. rewrite Hat by done. by rewrite decide_False by lia.
Qed.

(** No engine call is made for a missing element. *)
Lemma missing_costs_no_call :
  expand_calls NA_STRING = [] ∧ parse_calls NA_STRING = []
  ∧ (∀ element, calls_of (get_element element NA_STRING) = [])
  ∧ (∀ element replacement,
       calls_of (set_element element NA_STRING replacement) = []).
Proof. done. Qed.

(** ** Shape of the results *)

(** X17. Every batch operation that returns, returns output as long as its
    input (for [parse_addr], ten columns each as long as the input), and
    what stands at a position the operation has reached is what the
    operation computes from the input at that same position.  The
    operations do return, when the host does not interrupt them:
    [address_normalise] and [parse_addr] always, [get_elements] for a
    field index in range, [set_elements] for a field index in range, a
    number of new values that is 1 or the number of addresses, and field
    values that occur in their addresses. *)
Theorem batch_length_preserved i0 (addresses new_value : CharacterVector)
  element :
  (∀ out, outcome_of (address_normalise addresses) = Returned out →
     length out = length addresses
     ∧ ∀ k a, addresses !! k = Some a →
         out !! k = Some (normalise_element a))
  ∧ (∀ df, outcome_of (parse_addr i0 addresses) = Returned df →
       ∃ cols : list CharacterVector,
         df = zip field_names cols
         ∧ length cols = 10
         ∧ ∀ s col, cols !! s = Some col →
             length col = length addresses
             ∧ ∀ k a, i0 ≤ k → addresses !! k = Some a →
                 col !! k = Some (field_of s a))
  ∧ (∀ out, outcome_of (get_elements i0 addresses element) = Returned out →
       length out = length addresses
       ∧ ∀ k a, i0 ≤ k → addresses !! k = Some a →
           outcome_of (get_element element a) = Returned (out !!! k))
  ∧ (∀ out,
       outcome_of (set_elements i0 addresses new_value element) = Returned out →
       length out = length addresses
       ∧ ∀ k a, i0 ≤ k → addresses !! k = Some a →
           outcome_of (set_element element a (replacement_at new_value k))
           = Returned (out !!! k))
  ∧ ((∀ j, interrupt_pending j = false) →
       (∃ out, outcome_of (address_normalise addresses) = Returned out)
       ∧ (∃ df, outcome_of (parse_addr i0 addresses) = Returned df)
       ∧ ((0 ≤ element ≤ 9)%Z →
            (∃ out, outcome_of (get_elements i0 addresses element)
                    = Returned out)
            ∧ (length new_value = 1 ∨ length new_value = length addresses →
               Forall (field_found element) addresses →
               ∃ out,
                 outcome_of (set_elements i0 addresses new_value element)
                 = Returned out))).
Proof.
  split; [|split; [|split; [|split]]].
  - intros out ->%address_normalise_returned.
    split; [by rewrite length_fmap|].
    intros k a Hk. by rewrite list_lookup_fmap, Hk.
  - intros df (cols & -> & Hcols & Hcol)%parse_addr_returned.
    exists cols. split; [done|]. split; [done|].
    intros s col Hs. destruct (Hcol s col Hs) as [Hl Hat].
    split; [done|]. intros k a Hi0 Hk.
    rewrite Hat by (by eapply lookup_lt_Some).
    rewrite (list_lookup_total_correct _ _ _ Hk). by rewrite decide_True.
  - apply get_elements_returned.
  - apply set_elements_returned.
  - intros Hq. split; [|split; [|intros He; split]].
    + rewrite address_normalise_eq by done. by eexists.
    + destruct (parse_addr_eq i0 addresses Hq) as (cols & -> & _).
      by eexists.
    + destruct (get_elements_eq i0 addresses element Hq He) as (out & -> & _).
      by eexists.
    + by apply set_elements_returns.
Qed.

(** C7. [set_elements] with a single new value that is the missing-value
    sentinel returns the batch it was given, and makes no engine call. *)
Theorem set_elements_missing_single_is_identity i0
  (addresses : CharacterVector) element :
  set_elements i0 addresses [NA_STRING] element = (Returned addresses, []).
Proof. reflexivity. Qed.

(** C9. The data frame [parse_addr] returns has its ten columns named, in
    this order, house, house_number, road, suburb, city_district, city,
    state_district, state, postal_code, country; and the column of a name
    holds, for each address the loop has reached, the slot the parser's
    pairs give that name, wherever those pairs stand in the parser's
    answer.  [parse_addr] returns when the host does not interrupt it. *)
Theorem parse_addr_column_order i0 (addresses : CharacterVector) :
  (∀ df, outcome_of (parse_addr i0 addresses) = Returned df →
     df.*1 = field_names
     ∧ ∀ s name col, df !! s = Some (name, col) →
         field_names !! s = Some name
         ∧ ∀ k a, i0 ≤ k → addresses !! k = Some (Some a) →
             col !! k = Some (slot_by_last_write name (parse_address a)))
  ∧ ((∀ j, interrupt_pending j = false) →
       ∃ df, outcome_of (parse_addr i0 addresses) = Returned df).
Proof.
  split.
  - intros df (cols & -> & Hcols & Hcol)%parse_addr_returned.
    split; [apply fst_zip; rewrite Hcols; done|].
    intros s name col
      (name' & col' & [= <- <-] & Hname & Hs)%lookup_zip_with_Some.
    split; [done|]. intros k a Hi0 Hk.
    destruct (Hcol s col Hs) as [_ Hat].
    rewrite Hat by (by eapply lookup_lt_Some).
    rewrite (list_lookup_total_correct _ _ _ Hk), decide_True by done.
    f_equal. unfold field_of. apply list_lookup_total_correct.
    unfold address_record. by rewrite list_lookup_fmap, Hname.
  - intros Hq. destruct (parse_addr_eq i0 addresses Hq) as (cols & -> & _).
    by eexists.
Qed.

(** C10. Neither [get_elements] nor [set_elements] checks the field index.
    Reading slot [element] of the record [parse_single] returns is within
    the record exactly when [0 <= element <= 9].  With an index in that
    range neither operation ever reads outside the record; with an index
    outside it, an uninterrupted operation does so as soon as it reaches an
    address it has to parse. *)
Theorem field_index_precondition i0 (addresses new_value : CharacterVector)
  element :
  (∀ x record, outcome_of (parse_single x) = Returned record →
     (∃ v, outcome_of (vec_at record element) = Returned v)
     ↔ (0 ≤ element ≤ 9)%Z)
  ∧ ((0 ≤ element ≤ 9)%Z →
       outcome_of (get_elements i0 addresses element)
       ≠ Raised subscript_out_of_bounds
       ∧ outcome_of (set_elements i0 addresses new_value element)
         ≠ Raised subscript_out_of_bounds)
  ∧ (¬ (0 ≤ element ≤ 9)%Z →
     (∀ j, interrupt_pending j = false) →
       ((∃ k a, i0 ≤ k ∧ addresses !! k = Some (Some a)) →
        outcome_of (get_elements i0 addresses element)
        = Raised subscript_out_of_bounds)
       ∧ (length new_value = 1 ∨ length new_value = length addresses →
          (∃ k a r, i0 ≤ k ∧ addresses !! k = Some (Some a)
                    ∧ replacement_at new_value k = Some r) →
          outcome_of (set_elements i0 addresses new_value element)
          = Raised subscript_out_of_bounds)).
Proof.
  split; [|split].
  - intros x record. rewrite parse_single_eq. intros [= <-].
    rewrite vec_at_returns_iff, length_address_record. lia.
  - intros He. split.
    + intros [|[_ ?]]%get_elements_raised; done.
    + intros [|[|[|[_ ?]]]]%set_elements_raised; done.
  - intros He Hq. split.
    + by apply get_elements_unchecked.
    + by apply set_elements_unchecked.
Qed.

(** ** A field value that is not in the address *)

Lemma set_element_not_found element a value replacement :
  (0 ≤ element ≤ 9)%Z →
  field_of (Z.to_nat element) (Some a) = Some value →
  String.index 0 value a = None →
  (N.of_nat (String.length a) < npos)%N →
  set_element element (Some a) (Some replacement)
  = (Raised std_out_of_range, [call_parse_address a]).
Proof.
  intros He Hfield Hfind Hsize. simpl.
  rewrite replace_field_in_range by done.
  unfold field_of in Hfield. rewrite Hfield.
  by rewrite std_replace_not_found.
Qed.

(** X16. [set_elements] throws [std::out_of_range] as soon as it reaches
    an address in which the text of the field to replace does not occur. *)
Lemma set_elements_not_found i0 (addresses new_value : CharacterVector)
  element :
  (∀ j, interrupt_pending j = false) →
  (0 ≤ element ≤ 9)%Z →
  length new_value = 1 ∨ length new_value = length addresses →
  (∃ k a value r,
     i0 ≤ k ∧ addresses !! k = Some (Some a)
     ∧ replacement_at new_value k = Some r
     ∧ field_of (Z.to_nat element) (Some a) = Some value
     ∧ String.index 0 value a = None
     ∧ (N.of_nat (String.length a) < npos)%N) →
  outcome_of (set_elements i0 addresses new_value element)
  = Raised std_out_of_range.
Proof.
  intros Hq He Hlen (k & a & value & r & Hk & Ha & Hr & Hfield & Hfind & Hsize).
  rewrite set_elements_unfold.
  assert (outcome_of (set_elements_loop i0 addresses new_value element)
          = Raised std_out_of_range) as Hloop.
  { apply elementwise_raises; [done| |].
    - intros j Hj.
      destruct (outcome_of (set_element element (addresses !!! j)
                              (replacement_at new_value j))) as [x|e] eqn:Hj';
        [left; by eexists|right].
      apply set_element_raised in Hj' as [->|[_ ?]]; done.
    - exists k. split; [split; [done|by eapply lookup_lt_Some]|].
      rewrite (list_lookup_total_correct _ _ _ Ha), Hr.
      by rewrite (set_element_not_found element a value r). }
  destruct (Nat.eqb_spec (length new_value) 1) as [H1|H1].
  - unfold replacement_at in Hr. rewrite (proj2 (Nat.eqb_eq _ _) H1) in Hr.
    by rewrite Hr.
  - destruct (Nat.eqb_spec (length new_value) (length addresses)); [done|lia].
Qed.

(** ** The engine calls of a batch *)

Lemma concat_expand_calls (l : CharacterVector) :
  concat (expand_calls <$> l) = call_expand_address <$> omap id l.
Proof.
  induction l as [|[a|] l IH]; [done|..]; cbn; rewrite IH; done.
Qed.

Lemma concat_parse_calls (l : CharacterVector) :
  concat (parse_calls <$> l) = call_parse_address <$> omap id l.
Proof.
  induction l as [|[a|] l IH]; [done|..]; cbn; rewrite IH; done.
Qed.

(** X1. In a run the host does not interrupt, [address_normalise] calls the
    expander once for each non-missing address, in the order of the batch,
    and nothing else; [parse_addr] and [get_elements] (with a field index in
    range) call the parser once for each non-missing address from the index
    their counter starts from, in order, and nothing else. *)
Theorem engine_calls_follow_non_missing i0 (addresses : CharacterVector)
  element :
  (∀ j, interrupt_pending j = false) →
  calls_of (address_normalise addresses)
  = call_expand_address <$> omap id addresses
  ∧ calls_of (parse_addr i0 addresses)
    = call_parse_address <$> omap id (drop i0 addresses)
  ∧ ((0 ≤ element ≤ 9)%Z →
     calls_of (get_elements i0 addresses element)
     = call_parse_address <$> omap id (drop i0 addresses)).
Proof.
  intros Hq. split; [|split].
  - rewrite address_normalise_eq by done. apply concat_expand_calls.
  - destruct (parse_addr_eq i0 addresses Hq) as (cols & -> & _).
    apply concat_parse_calls.
  - intros He.
    destruct (get_elements_eq i0 addresses element Hq He) as (out & -> & _).
    apply concat_parse_calls.
Qed.

(** ** Blank strings *)

Lemma toOptional_not_blank v : toOptional v ≠ Some "".
Proof. by destruct v. Qed.

Lemma slot_by_last_write_not_blank name (pairs : address_parser_response_t) :
  slot_by_last_write name pairs ≠ Some "".
Proof.
  unfold slot_by_last_write. destruct (last _) as [[label v]|]; [|done].
  apply toOptional_not_blank.
Qed.

Lemma address_record_not_blank (pairs : address_parser_response_t) k :
  address_record pairs !! k ≠ Some (Some "").
Proof.
  unfold address_record. rewrite list_lookup_fmap.
  destruct (field_names !! k) as [name|]; [|done]. simpl.
  intros [= H]. by apply slot_by_last_write_not_blank in H.
Qed.

Lemma field_of_not_blank k a : field_of k a ≠ Some "".
Proof.
  destruct a as [a|]; [|done]. unfold field_of.
  rewrite list_lookup_total_alt.
  destruct (address_record (parse_address a) !! k) as [x|] eqn:Hx; [|done].
  simpl. intros ->. by apply address_record_not_blank in Hx.
Qed.

(** X2. No slot of the record [parse_single] returns holds the blank
    string, and no column of the data frame [parse_addr] returns holds it at
    any row: a component the parser reports as blank has become
    [NA_STRING], and a row the loop has not reached keeps the [NA_STRING] the
    columns are created with. *)
Theorem parse_never_yields_blank i0 (addresses : CharacterVector) :
  (∀ x record k, outcome_of (parse_single x) = Returned record →
     record !! k ≠ Some (Some ""))
  ∧ (∀ df name col k, outcome_of (parse_addr i0 addresses) = Returned df →
       (name, col) ∈ df → col !! k ≠ Some (Some "")).
Proof.
  split.
  - intros x record k. rewrite parse_single_eq. intros [= <-].
    apply address_record_not_blank.
  - intros df name col k (cols & -> & Hcols & Hcol)%parse_addr_returned
      (s & Hs)%list_elem_of_lookup_1.
    apply lookup_zip_with_Some in Hs as (name' & col' & [= <- <-] & _ & Hs).
    destruct (Hcol s col Hs) as [Hl Hat].
    destruct (decide (k < length addresses)) as [Hk|Hk].
    + rewrite Hat by done. intros [= H]. case_decide; [|done].
      by apply field_of_not_blank in H.
    + by rewrite lookup_ge_None_2 by lia.
Qed.

(** ** Substrings *)

Lemma length_substring (s : string) p n :
  String.length (String.substring p n s) = n `min` (String.length s - p).
Proof.
  revert p n. induction s as [|c s IH]; intros [|p] [|n]; simpl;
    rewrite ?IH, ?Nat.sub_0_r; done.
Qed.

Lemma append_nil_l (s : string) : "" +:+ s = s.
Proof. reflexivity. Qed.

Lemma append_cons c (s t : string) : String c s +:+ t = String c (s +:+ t).
Proof. reflexivity. Qed.

Lemma substring_whole (s : string) :
  String.substring 0 (String.length s) s = s.
Proof. induction s as [|c s IH]; simpl; by rewrite ?IH. Qed.

(** A string is what stands before a position, [n] characters from it, and
    the rest. *)
Lemma substring_split (s : string) p n :
  p + n ≤ String.length s →
  s = String.substring 0 p s +:+ String.substring p n s
      +:+ String.substring (p + n) (String.length s - (p + n)) s.
Proof.
  revert p n. induction s as [|c s IH]; intros p n Hle.
  - simpl in Hle. by replace p with 0 by lia; replace n with 0 by lia.
  - cbn [String.length] in Hle. destruct p as [|p].
    + destruct n as [|n].
      * cbn [String.substring Nat.add Nat.sub]. rewrite !append_nil_l.
        symmetry. apply (substring_whole (String c s)).
      * cbn [String.substring String.length Nat.add Nat.sub].
        rewrite append_nil_l, append_cons. f_equal.
        rewrite (IH 0 n) at 1 by lia. by destruct s.
    + cbn [String.substring String.length Nat.add Nat.sub].
      rewrite append_cons. f_equal. apply (IH p n). lia.
Qed.

Lemma index_fits (value s : string) p :
  String.index 0 value s = Some p →
  p + String.length value ≤ String.length s.
Proof.
  intros Hp. pose proof (index_le _ _ _ _ Hp) as Hle.
  apply String.index_correct1 in Hp.
  apply (f_equal String.length) in Hp. rewrite length_substring in Hp. lia.
Qed.

(** ** What [set_elements] puts in place of an address *)

(** The text an address becomes: what stands before position [p], the
    replacement, and what stands after the [n] characters replaced. *)
Lemma set_element_found element a value r p :
  (0 ≤ element ≤ 9)%Z →
  field_of (Z.to_nat element) (Some a) = Some value →
  String.index 0 value a = Some p →
  set_element element (Some a) (Some r)
  = (Returned
       (Some (String.substring 0 p a +:+ r
              +:+ String.substring (p + String.length value)
                    (String.length a - (p + String.length value)) a)),
     [call_parse_address a]).
Proof.
  intros He Hfield Hp. simpl. rewrite replace_field_in_range by done.
  unfold field_of in Hfield. rewrite Hfield.
  pose proof (index_fits _ _ _ Hp) as Hfits.
  unfold std_replace, std_find. rewrite Hp.
  rewrite (proj2 (N.ltb_ge _ _)) by lia.
  rewrite N.min_l by lia. unfold outcome_of, ret. simpl.
  by rewrite <- Nat2N.inj_add, !Nat2N.id.
Qed.

(** In a string shorter than [npos], as every [std::string] is, the
    replacement goes through only if the text was found. *)
Lemma set_element_returned_found element a value r x :
  (0 ≤ element ≤ 9)%Z →
  (N.of_nat (String.length a) < npos)%N →
  field_of (Z.to_nat element) (Some a) = Some value →
  outcome_of (set_element element (Some a) (Some r)) = Returned x →
  ∃ p, String.index 0 value a = Some p.
Proof.
  intros He Hsize Hfield Hx.
  destruct (String.index 0 value a) as [p|] eqn:Hp; [by eexists|].
  by rewrite (set_element_not_found element a value r) in Hx.
Qed.

(** X3. Where [set_elements] has reached a non-missing address with a
    non-missing replacement and the parser reports the field, the output is
    the address with the first occurrence of the field's text replaced and
    everything before and after it kept: the address is [before], the
    field's text, [after], with no earlier occurrence of the text, and the
    output is [before], the replacement, [after]. *)
Theorem set_elements_replaces_first_occurrence i0
  (addresses new_value : CharacterVector) element out k a value r :
  (0 ≤ element ≤ 9)%Z →
  (N.of_nat (String.length a) < npos)%N →
  outcome_of (set_elements i0 addresses new_value element) = Returned out →
  i0 ≤ k →
  addresses !! k = Some (Some a) →
  replacement_at new_value k = Some r →
  field_of (Z.to_nat element) (Some a) = Some value →
  ∃ before after,
    a = before +:+ value +:+ after
    ∧ String.index 0 value a = Some (String.length before)
    ∧ out !! k = Some (Some (before +:+ r +:+ after)).
Proof.
  intros He Hsize [Hl Hat]%set_elements_returned Hk Ha Hr Hfield.
  specialize (Hat k _ Hk Ha). rewrite Hr in Hat.
  destruct (set_element_returned_found _ _ _ _ _ He Hsize Hfield Hat)
    as [p Hp].
  rewrite (set_element_found _ _ _ _ _ He Hfield Hp) in Hat.
  injection Hat as Hat.
  pose proof (index_fits _ _ _ Hp) as Hfits.
  exists (String.substring 0 p a),
    (String.substring (p + String.length value)
       (String.length a - (p + String.length value)) a).
  split; [|split].
  - pose proof (substring_split a p (String.length value) Hfits) as Hsplit.
    by rewrite (String.index_correct1 _ _ _ _ Hp) in Hsplit.
  - rewrite length_substring, Hp. f_equal. lia.
  - rewrite (list_lookup_lookup_total_lt out k)
      by (rewrite Hl; by eapply lookup_lt_Some).
    by rewrite <- Hat.
Qed.

(** X4. Replacing a field by the text the parser reports for it gives the
    address back: where [set_elements] has reached a non-missing address
    whose replacement is the field's own text, the output is the address. *)
Theorem set_elements_same_text_is_identity i0
  (addresses new_value : CharacterVector) element out k a value :
  (0 ≤ element ≤ 9)%Z →
  (N.of_nat (String.length a) < npos)%N →
  outcome_of (set_elements i0 addresses new_value element) = Returned out →
  i0 ≤ k →
  addresses !! k = Some (Some a) →
  field_of (Z.to_nat element) (Some a) = Some value →
  replacement_at new_value k = Some value →
  out !! k = Some (Some a).
Proof.
  intros He Hsize [Hl Hat]%set_elements_returned Hk Ha Hfield Hr.
  specialize (Hat k _ Hk Ha). rewrite Hr in Hat.
  destruct (set_element_returned_found _ _ _ _ _ He Hsize Hfield Hat)
    as [p Hp].
  rewrite (set_element_found _ _ _ _ _ He Hfield Hp) in Hat.
  injection Hat as Hat.
  rewrite (list_lookup_lookup_total_lt out k)
    by (rewrite Hl; by eapply lookup_lt_Some).
  rewrite <- Hat. do 2 f_equal.
  pose proof (substring_split a p (String.length value)
                (index_fits _ _ _ Hp)) as Hsplit.
  by rewrite (String.index_correct1 _ _ _ _ Hp) in Hsplit.
Qed.

(** X5. [set_elements] leaves an address it has reached as it is when the
    replacement that goes with it is missing, or when the parser reports
    nothing (or a blank) for the field. *)
Theorem set_elements_keeps_address_without_field i0
  (addresses new_value : CharacterVector) element out k a :
  outcome_of (set_elements i0 addresses new_value element) = Returned out →
  i0 ≤ k →
  addresses !! k = Some (Some a) →
  replacement_at new_value k = NA_STRING
  ∨ field_of (Z.to_nat element) (Some a) = NA_STRING →
  out !! k = Some (Some a).
Proof.
  intros [Hl Hat]%set_elements_returned Hk Ha Hcase.
  specialize (Hat k _ Hk Ha).
  rewrite (list_lookup_lookup_total_lt out k)
    by (rewrite Hl; by eapply lookup_lt_Some).
  destruct (replacement_at new_value k) as [r|]; [|by injection Hat as <-].
  destruct Hcase as [|Hfield]; [done|].
  destruct (decide (0 ≤ element ≤ 9)%Z) as [He|He].
  - simpl in Hat. rewrite replace_field_in_range in Hat by done.
    unfold field_of in Hfield. rewrite Hfield in Hat.
    by injection Hat as <-.
  - simpl in Hat. by rewrite replace_field_out_of_range in Hat.
Qed.

(** X6. [get_elements] with field index [element] returns column [element]
    of the data frame [parse_addr] returns on the same batch, at every row
    both loops have reached. *)
Theorem get_elements_is_parse_addr_column i0 i1
  (addresses : CharacterVector) element out df :
  (0 ≤ element ≤ 9)%Z →
  outcome_of (get_elements i0 addresses element) = Returned out →
  outcome_of (parse_addr i1 addresses) = Returned df →
  ∃ name col,
    df !! Z.to_nat element = Some (name, col)
    ∧ field_names !! Z.to_nat element = Some name
    ∧ ∀ k, i0 ≤ k → i1 ≤ k → out !! k = col !! k.
Proof.
  intros He [Hl Hat]%get_elements_returned
    (cols & -> & Hcols & Hcol)%parse_addr_returned.
  destruct (lookup_lt_is_Some_2 cols (Z.to_nat element) ltac:(lia))
    as [col Hc].
  destruct (lookup_lt_is_Some_2 field_names (Z.to_nat element)
              ltac:(simpl; lia)) as [name Hn].
  exists name, col. split; [|split; [done|]].
  { apply lookup_zip_with_Some. by exists name, col. }
  destruct (Hcol _ col Hc) as [Hlc Hatc].
  intros k Hk0 Hk1.
  destruct (decide (k < length addresses)) as [Hk|Hk].
  - destruct (lookup_lt_is_Some_2 addresses k Hk) as [a Ha].
    specialize (Hat k a Hk0 Ha). rewrite get_element_in_range in Hat by done.
    injection Hat as Hat.
    rewrite Hatc by done. rewrite decide_True by done.
    rewrite (list_lookup_total_correct _ _ _ Ha), Hat.
    apply list_lookup_lookup_total_lt. lia.
  - by rewrite !lookup_ge_None_2 by lia.
Qed.

(** ** One new value for every address *)

Lemma for_loop_ext_range {S : Type} (body body' : nat → S → M S) count i s :
  (∀ j s1, i ≤ j < i + count → body j s1 = body' j s1) →
  for_loop count i body s = for_loop count i body' s.
Proof.
  revert i s. induction count as [|count IH]; intros i s Hext; [done|].
  cbn [for_loop]. rewrite Hext by lia. unfold bind.
  destruct (body' i s) as [[s1|e] t]; [|done].
  rewrite IH; [done|]. intros. apply Hext. lia.
Qed.

(** X7. Giving [set_elements] one non-missing new value is the same as
    giving it that value once for every address: same output, same engine
    calls, same failure. *)
Theorem set_elements_broadcast i0 (addresses : CharacterVector) r element :
  set_elements i0 addresses [Some r] element
  = set_elements i0 addresses (replicate (length addresses) (Some r)) element.
Proof.
  destruct (decide (length addresses = 1)) as [H1|H1].
  { by rewrite H1. }
  rewrite !set_elements_unfold. rewrite length_replicate.
  rewrite (proj2 (Nat.eqb_neq _ _) H1). simpl. rewrite Nat.eqb_refl.
  unfold set_elements_loop, for_range. apply for_loop_ext_range.
  intros j s1 Hj. unfold elementwise_body, replacement_at.
  rewrite length_replicate, (proj2 (Nat.eqb_neq _ _) H1). simpl.
  by rewrite lookup_total_replicate_2 by lia.
Qed.

(** ** When a batch is interrupted *)

Lemma interrupt_checkpoint_raises_iff i :
  interrupt_checkpoint i = raise user_interrupt
  ↔ (N.of_nat i mod 10000 = 0)%N ∧ interrupt_pending i = true.
Proof.
  unfold interrupt_checkpoint, checkUserInterrupt.
  destruct (N.eqb_spec (N.of_nat i mod 10000) 0) as [Hm|Hm].
  - destruct (interrupt_pending i); by intuition.
  - split; [done|]. by intros [? _].
Qed.

(** A loop raises only what its body raises, at an index of its range. *)
Lemma for_loop_raised_at {S : Type} (body : nat → S → M S) count i s e :
  outcome_of (for_loop count i body s) = Raised e →
  ∃ j s1, i ≤ j < i + count ∧ outcome_of (body j s1) = Raised e.
Proof.
  revert i s. induction count as [|count IH]; intros i s; cbn [for_loop].
  - unfold outcome_of, ret. simpl. done.
  - intros [H|(s1 & H1 & H2)]%bind_raised_inv.
    + exists i, s. split; [lia|done].
    + destruct (IH _ _ H2) as (j & s2 & Hj & Hraise).
      exists j, s2. split; [lia|done].
Qed.

(** An element-by-element loop whose element computations always return
    is interrupted exactly when an interrupt is pending at a checkpoint of
    its range. *)
Lemma elementwise_interrupted_iff elem i0 n (init : CharacterVector) :
  (∀ k, ∃ x, outcome_of (elem k) = Returned x) →
  outcome_of (for_range i0 n (elementwise_body elem) init)
  = Raised user_interrupt
  ↔ ∃ j, i0 ≤ j < n ∧ (N.of_nat j mod 10000 = 0)%N
         ∧ interrupt_pending j = true.
Proof.
  intros Helem. unfold for_range. split.
  - intros (j & s1 & Hj & Hraise)%for_loop_raised_at.
    exists j. split; [lia|]. apply interrupt_checkpoint_raises_iff.
    unfold elementwise_body in Hraise.
    destruct (interrupt_checkpoint_cases j) as [Hc|Hc]; [|done].
    rewrite Hc, bind_ret in Hraise. destruct (Helem j) as [x Hx].
    apply bind_raised_inv in Hraise as [Hraise|(y & _ & Hraise)].
    + by rewrite Hx in Hraise.
    + by unfold outcome_of, ret in Hraise.
  - intros (j & Hj & Hcheck). apply for_loop_raises.
    + intros j' s1 _. unfold elementwise_body.
      destruct (interrupt_checkpoint_cases j') as [-> | ->]; [|by right].
      rewrite bind_ret. left. destruct (Helem j') as [x Hx].
      unfold bind, outcome_of in *. destruct (elem j') as [[y|e] t]; [|done].
      by eexists.
    + exists j. split; [lia|]. intros s1. unfold elementwise_body.
      by rewrite (proj2 (interrupt_checkpoint_raises_iff j) Hcheck).
Qed.

(** X8. [address_normalise] is interrupted exactly when the host has an
    interrupt pending at an index of the batch that is a multiple of 10000
    (index 0 included, so an empty batch is never interrupted); it raises
    nothing else. *)
Theorem address_normalise_interrupted_iff (addresses : CharacterVector) :
  (outcome_of (address_normalise addresses) = Raised user_interrupt
   ↔ ∃ j, j < length addresses ∧ (N.of_nat j mod 10000 = 0)%N
          ∧ interrupt_pending j = true)
  ∧ (∀ e, outcome_of (address_normalise addresses) = Raised e →
       e = user_interrupt).
Proof.
  assert (address_normalise addresses
          = for_range 0 (length addresses)
              (elementwise_body (λ j, normalise_run (addresses !!! j)))
              (new_vector (length addresses))) as ->.
  { unfold address_normalise, for_range. apply for_loop_ext.
    intros. apply address_normalise_body_elementwise. }
  split.
  - rewrite elementwise_interrupted_iff.
    + split; intros (j & Hj & H); exists j; (split; [lia|done]).
    + intros k. rewrite normalise_run_eq. by eexists.
  - intros e [->|[k Hk]]%elementwise_raised; [done|].
    by rewrite normalise_run_eq in Hk.
Qed.

(** ** The order and the labels of the parser's pairs *)

Lemma filter_label_at_most_one name (pairs : address_parser_response_t) :
  NoDup pairs.*1 → length (filter (λ lc, lc.1 = name) pairs) ≤ 1.
Proof.
  induction pairs as [|[label v] pairs IH];
    [intros _; rewrite filter_nil; simpl; lia|].
  rewrite fmap_cons, NoDup_cons. intros [Hfresh Hnd].
  rewrite filter_cons. case_decide as Hlabel; [|by apply IH].
  simpl in Hlabel. subst name.
  destruct (filter (λ lc, lc.1 = label) pairs) as [|lc rest] eqn:Hf; [done|].
  assert (lc ∈ filter (λ lc, lc.1 = label) pairs) as Hin
    by (rewrite Hf; apply list_elem_of_here).
  apply list_elem_of_filter in Hin as [Hlc Hin]. destruct Hfresh.
  simpl. rewrite <- Hlc. by apply list_elem_of_fmap_2.
Qed.

(** With no label repeated, the record does not depend on the order of
    the pairs. *)
Lemma address_record_permutation (pairs pairs' : address_parser_response_t) :
  pairs ≡ₚ pairs' → NoDup pairs.*1 →
  address_record pairs = address_record pairs'.
Proof.
  intros Hperm Hnd. unfold address_record. apply list_fmap_ext.
  intros _ name _. unfold slot_by_last_write.
  pose proof (filter_label_at_most_one name pairs Hnd) as Hone.
  assert (filter (λ lc, lc.1 = name) pairs
          ≡ₚ filter (λ lc, lc.1 = name) pairs') as Hfilter
    by (by rewrite Hperm).
  destruct (filter (λ lc, lc.1 = name) pairs) as [|lc [|lc' rest]].
  - apply Permutation_nil_l in Hfilter. by rewrite Hfilter.
  - apply Permutation_singleton_l in Hfilter. by rewrite <- Hfilter.
  - simpl in Hone. lia.
Qed.

(** Pairs whose label is none of the ten field names do not count. *)
Lemma address_record_known_labels (pairs : address_parser_response_t) :
  address_record (filter (λ lc, lc.1 ∈ field_names) pairs)
  = address_record pairs.
Proof.
  unfold address_record. apply list_fmap_ext.
  intros i name Hname. unfold slot_by_last_write.
  rewrite list_filter_filter_l; [done|].
  intros lc ->. by eapply list_elem_of_lookup_2.
Qed.

End Poster.

(** ** Engine lifecycle *)

(** C8. [setup] raises the initialisation error if and only if one of the
    initialisers it ran reported failure; it returns normally if and only
    if all three ran and reported success; and it does one or the other.
    What it ran is the longest run of the three, in order, in which only
    the last may have failed. *)
Theorem setup_raises_iff_a_subsystem_fails {engine_state : Type}
  (libpostal_setup libpostal_setup_language_classifier libpostal_setup_parser
     : engine_state → bool * engine_state)
  (st : engine_state) :
  (setup_outcome
     (setup libpostal_setup libpostal_setup_language_classifier
        libpostal_setup_parser st)
   = Raised (std_runtime_error setup_failed_message)
   ↔ ∃ sub,
       (sub, false)
       ∈ setup_reports
           (setup libpostal_setup libpostal_setup_language_classifier
              libpostal_setup_parser st))
  ∧ (setup_outcome
       (setup libpostal_setup libpostal_setup_language_classifier
          libpostal_setup_parser st)
     = Returned tt
     ↔ setup_reports
         (setup libpostal_setup libpostal_setup_language_classifier
            libpostal_setup_parser st)
       = [(core_data, true); (language_classifier, true); (parser, true)])
  ∧ (setup_outcome
       (setup libpostal_setup libpostal_setup_language_classifier
          libpostal_setup_parser st)
     = Returned tt
     ∨ setup_outcome
         (setup libpostal_setup libpostal_setup_language_classifier
            libpostal_setup_parser st)
       = Raised (std_runtime_error setup_failed_message))
  ∧ setup_reports
      (setup libpostal_setup libpostal_setup_language_classifier
         libpostal_setup_parser st)
    `prefix_of`
    [(core_data, (libpostal_setup st).1);
     (language_classifier,
      (libpostal_setup_language_classifier (libpostal_setup st).2).1);
     (parser,
      (libpostal_setup_parser
         (libpostal_setup_language_classifier (libpostal_setup st).2).2).1)].
Proof.
  unfold setup.
  destruct (libpostal_setup st) as [[] st1]; simpl;
    [destruct (libpostal_setup_language_classifier st1) as [[] st2]; simpl;
       [destruct (libpostal_setup_parser st2) as [[] st3]; simpl|]|].
  all: split;
    [split;
       [done || (intros _; eexists;
                 repeat first [apply list_elem_of_here
                              |apply list_elem_of_further])
       |intros [sub Hsub];
        first [done
              |repeat (apply elem_of_cons in Hsub as [[=]|Hsub]);
               by apply elem_of_nil in Hsub]]|].
  all: split; [split; done|].
  all: split; [first [by left|by right]|].
  all: by eexists.
Qed.

(** ** The model at work *)

Example parse_single_example :
  parse_single Fixture.parse_address "12 main st london"
  = (Returned
       [NA_STRING; Some "12"; Some "main st"; NA_STRING; NA_STRING;
        Some "london"; NA_STRING; NA_STRING; NA_STRING; NA_STRING],
     [call_parse_address "12 main st london"]).
Proof. reflexivity. Qed.

Example address_normalise_example :
  address_normalise Fixture.expand_address Fixture.no_interrupt
    [Some "fourty seven love lane"; NA_STRING; Some "zzz"]
  = (Returned [Some "47 love lane"; NA_STRING; Some "zzz"],
     [call_expand_address "fourty seven love lane";
      call_expand_address "zzz"]).
Proof. vm_compute. reflexivity. Qed.

Example get_elements_example :
  get_elements Fixture.parse_address Fixture.no_interrupt 0
    [Some "12 main st london"; NA_STRING] 5
  = (Returned [Some "london"; NA_STRING],
     [call_parse_address "12 main st london"]).
Proof. vm_compute. reflexivity. Qed.

Example set_elements_example :
  set_elements Fixture.parse_address Fixture.no_interrupt 0
    [Some "12 main st london"; NA_STRING] [Some "high st"] 2
  = (Returned [Some "12 high st london"; NA_STRING],
     [call_parse_address "12 main st london"]).
Proof. vm_compute. reflexivity. Qed.

Example interrupted_example :
  address_normalise Fixture.expand_address (λ _, true) [Some "zzz"]
  = (Raised user_interrupt, []).
Proof. vm_compute. reflexivity. Qed.

(** ** The loop counter that is never initialised *)

(** C3. A missing address that lies below the value the counter of
    [get_elements] or [set_elements] starts from is not propagated: whatever
    the engine, the field index and the host do, the output keeps the blank
    string it was created with as soon as the counter starts above 0. *)
Theorem get_elements_missing_not_propagated
  (parse_address : string → address_parser_response_t)
  (interrupt_pending : nat → bool) (i0 : nat) (element : Z) :
  get_elements parse_address interrupt_pending (S i0) [NA_STRING] element
  = (Returned [Some ""], [])
  ∧ set_elements parse_address interrupt_pending (S i0)
      [NA_STRING] [Some "high st"] element
    = (Returned [Some ""], []).
Proof. split; reflexivity. Qed.

(** With a counter that starts from 0 the sentinel goes through. *)
Example get_elements_from_zero :
  get_elements Fixture.parse_address Fixture.no_interrupt 0 [NA_STRING] 0
  = (Returned [NA_STRING], [])
  ∧ set_elements Fixture.parse_address Fixture.no_interrupt 0
      [NA_STRING] [Some "high st"] 0
    = (Returned [NA_STRING], []).
Proof. split; vm_compute; reflexivity. Qed.

(** C4. Below the value the counter of [get_elements], [set_elements] or
    [parse_addr] starts from, output position [i] does not correspond to
    input position [i]: as soon as the counter starts above 0, the output
    for a batch of one address is the same whatever that address is (the
    blank string the output was created with, the [NA_STRING] the columns
    were created with), and no engine call is made for it.  The length is
    that of the batch all the same. *)
Theorem batch_position_below_start_ignores_input
  (parse_address : string → address_parser_response_t)
  (interrupt_pending : nat → bool) (i0 : nat) (a : RString) (r : string)
  (element : Z) :
  get_elements parse_address interrupt_pending (S i0) [a] element
  = (Returned [Some ""], [])
  ∧ set_elements parse_address interrupt_pending (S i0) [a] [Some r] element
    = (Returned [Some ""], [])
  ∧ parse_addr parse_address interrupt_pending (S i0) [a]
    = (Returned (zip field_names (replicate 10 [NA_STRING])), []).
Proof. repeat split; reflexivity. Qed.

(** With a counter that starts from 0, position 0 of the output is made
    from position 0 of the input. *)
Example batch_position_from_zero :
  get_elements Fixture.parse_address Fixture.no_interrupt 0
    [Some "12 main st london"] 5
  = (Returned [Some "london"], [call_parse_address "12 main st london"])
  ∧ set_elements Fixture.parse_address Fixture.no_interrupt 0
      [Some "12 main st london"] [Some "high st"] 2
    = (Returned [Some "12 high st london"],
       [call_parse_address "12 main st london"])
  ∧ get_elements Fixture.parse_address Fixture.no_interrupt 1
      [Some "12 main st london"] 5
    = (Returned [Some ""], []).
Proof. repeat split; vm_compute; reflexivity. Qed.

(** ** The replaced text that [find] does not find *)

(** C5. The parser answers in lower case; the road it reports for
    "12 Main St" does not occur in that address, and [set_elements] throws
    instead of returning the address as it was. *)
Theorem set_elements_field_not_found_throws :
  set_elements Fixture.parse_address Fixture.no_interrupt 0
    [Some "12 Main St"] [Some "High St"] 2
  = (Raised std_out_of_range, [call_parse_address "12 Main St"]).
Proof. vm_compute. reflexivity. Qed.

(** ** The theorems at concrete inputs *)

Lemma normalise_first_expansion_or_identity_witness :
  ∃ output,
    outcome_of
      (address_normalise Fixture.expand_address Fixture.no_interrupt
         [Some "fourty seven love lane"; NA_STRING; Some "zzz"])
    = Returned output
    ∧ output !! 0 = Some (Some "47 love lane")
    ∧ output !! 2 = Some (Some "zzz").
Proof.
  destruct (normalise_first_expansion_or_identity
              Fixture.expand_address Fixture.no_interrupt
              [Some "fourty seven love lane"; NA_STRING; Some "zzz"]
              0 "fourty seven love lane" (λ _, eq_refl) eq_refl)
    as (output & Hout & _ & Hfirst).
  destruct (normalise_first_expansion_or_identity
              Fixture.expand_address Fixture.no_interrupt
              [Some "fourty seven love lane"; NA_STRING; Some "zzz"]
              2 "zzz" (λ _, eq_refl) eq_refl)
    as (output' & Hout' & Hnone & _).
  exists output. split; [exact Hout|]. split.
  - exact (Hfirst "47 love lane" ["47 love ln"] eq_refl).
  - rewrite Hout in Hout'. injection Hout' as <-. exact (Hnone eq_refl).
Defined.

Lemma batch_length_preserved_witness :
  (∃ out,
     outcome_of
       (address_normalise Fixture.expand_address Fixture.no_interrupt
          [Some "12 main st london"; NA_STRING; Some "nowhere"])
     = Returned out ∧ length out = 3)
  ∧ (∃ df cols,
       outcome_of
         (parse_addr Fixture.parse_address Fixture.no_interrupt 0
            [Some "12 main st london"; NA_STRING; Some "nowhere"])
       = Returned df
       ∧ df = zip field_names cols ∧ length cols = 10
       ∧ ∀ s col, cols !! s = Some col → length col = 3)
  ∧ (∃ out,
       outcome_of
         (get_elements Fixture.parse_address Fixture.no_interrupt 0
            [Some "12 main st london"; NA_STRING; Some "nowhere"] 2)
       = Returned out ∧ length out = 3)
  ∧ (∃ out,
       outcome_of
         (set_elements Fixture.parse_address Fixture.no_interrupt 0
            [Some "12 main st london"; NA_STRING; Some "nowhere"]
            [Some "high st"] 2)
       = Returned out ∧ length out = 3).
Proof.
  destruct (batch_length_preserved
              Fixture.expand_address Fixture.parse_address Fixture.no_interrupt
              0 [Some "12 main st london"; NA_STRING; Some "nowhere"]
              [Some "high st"] 2)
    as (Hnorm & Hparse & Hget & Hset & Hreturns).
  destruct (Hreturns (λ _, eq_refl))
    as ((out1 & Hout1) & (df & Hdf) & Hgetset).
  destruct (Hgetset ltac:(lia)) as ((out3 & Hout3) & Hsets).
  destruct (Hsets ltac:(by left)) as (out4 & Hout4).
  { repeat constructor. by exists 3. }
  split; [|split; [|split]].
  - exists out1. split; [done|]. by destruct (Hnorm out1 Hout1).
  - destruct (Hparse df Hdf) as (cols & Hzip & Hcols & Hcol).
    exists df, cols. repeat split; try done.
    intros s col Hs. by destruct (Hcol s col Hs).
  - exists out3. split; [done|]. by destruct (Hget out3 Hout3).
  - exists out4. split; [done|]. by destruct (Hset out4 Hout4).
Defined.

Lemma parse_addr_column_order_witness :
  ∃ df,
    outcome_of
      (parse_addr Fixture.parse_address Fixture.no_interrupt 0
         [Some "12 main st london"; NA_STRING])
    = Returned df
    ∧ df.*1
      = ["house"; "house_number"; "road"; "suburb"; "city_district"; "city";
         "state_district"; "state"; "postal_code"; "country"].
Proof.
  destruct (parse_addr_column_order
              Fixture.parse_address Fixture.no_interrupt 0
              [Some "12 main st london"; NA_STRING])
    as (Hreturned & Hreturns).
  destruct (Hreturns (λ _, eq_refl)) as (df & Hdf).
  exists df. split; [done|]. by destruct (Hreturned df Hdf).
Defined.

Lemma field_index_precondition_witness :
  (outcome_of
     (get_elements Fixture.parse_address Fixture.no_interrupt 0
        [Some "12 main st london"; NA_STRING] 9)
   ≠ Raised subscript_out_of_bounds
   ∧ outcome_of
       (set_elements Fixture.parse_address Fixture.no_interrupt 0
          [Some "12 main st london"; NA_STRING] [Some "high st"] 9)
     ≠ Raised subscript_out_of_bounds)
  ∧ outcome_of
      (get_elements Fixture.parse_address Fixture.no_interrupt 0
         [Some "12 main st london"; NA_STRING] 10)
    = Raised subscript_out_of_bounds
  ∧ outcome_of
      (set_elements Fixture.parse_address Fixture.no_interrupt 0
         [Some "12 main st london"; NA_STRING] [Some "high st"] (-1))
    = Raised subscript_out_of_bounds.
Proof.
  destruct (field_index_precondition
              Fixture.parse_address Fixture.no_interrupt 0
              [Some "12 main st london"; NA_STRING] [Some "high st"] 9)
    as (_ & Hin & _).
  destruct (field_index_precondition
              Fixture.parse_address Fixture.no_interrupt 0
              [Some "12 main st london"; NA_STRING] [Some "high st"] 10)
    as (_ & _ & Hout).
  destruct (field_index_precondition
              Fixture.parse_address Fixture.no_interrupt 0
              [Some "12 main st london"; NA_STRING] [Some "high st"] (-1))
    as (_ & _ & Hout').
  split; [apply Hin; lia|]. split.
  - destruct (Hout ltac:(lia) (λ _, eq_refl)) as [Hget _]. apply Hget.
    exists 0, "12 main st london". split; [lia|reflexivity].
  - destruct (Hout' ltac:(lia) (λ _, eq_refl)) as [_ Hset].
    apply Hset; [by left|].
    exists 0, "12 main st london", "high st".
    split; [lia|]. split; reflexivity.
Defined.

(** ** Further properties: the parser's answer *)

(** X9. As long as the parser repeats no label, the record [parse_single]
    returns does not depend on the order in which the parser emits its
    pairs: two parsers whose answers for an address are permutations of
    each other give the same record. *)
Theorem parse_single_order_irrelevant
  (parse_address parse_address' : string → address_parser_response_t) x :
  parse_address x ≡ₚ parse_address' x →
  NoDup (parse_address x).*1 →
  outcome_of (parse_single parse_address x)
  = outcome_of (parse_single parse_address' x).
Proof.
  intros Hperm Hnd. rewrite !parse_single_eq. unfold outcome_of. simpl.
  f_equal. by apply address_record_permutation.
Qed.

(** X10. [parse_single] ignores every pair whose label is none of the ten
    field names: a parser that emits only the pairs with a known label
    gives the same record. *)
Theorem parse_single_ignores_unknown_labels
  (parse_address : string → address_parser_response_t) x :
  outcome_of
    (parse_single
       (λ text, filter (λ lc, lc.1 ∈ field_names) (parse_address text)) x)
  = outcome_of (parse_single parse_address x).
Proof.
  rewrite !parse_single_eq. unfold outcome_of. simpl.
  f_equal. apply address_record_known_labels.
Qed.

(** ** The further properties at concrete inputs *)

(** A parser that answers as [Fixture.parse_address] does, in the reverse
    order. *)
Definition parse_address_reversed (text : string)
  : address_parser_response_t :=
  rev (Fixture.parse_address text).

Lemma engine_calls_follow_non_missing_witness :
  calls_of
    (address_normalise Fixture.expand_address Fixture.no_interrupt
       [Some "12 main st london"; NA_STRING; Some "nowhere"])
  = [call_expand_address "12 main st london"; call_expand_address "nowhere"]
  ∧ calls_of
      (parse_addr Fixture.parse_address Fixture.no_interrupt 1
         [Some "12 main st london"; NA_STRING; Some "nowhere"])
    = [call_parse_address "nowhere"]
  ∧ calls_of
      (get_elements Fixture.parse_address Fixture.no_interrupt 0
         [Some "12 main st london"; NA_STRING; Some "nowhere"] 5)
    = [call_parse_address "12 main st london"; call_parse_address "nowhere"].
Proof.
  destruct (engine_calls_follow_non_missing
              Fixture.expand_address Fixture.parse_address Fixture.no_interrupt
              1 [Some "12 main st london"; NA_STRING; Some "nowhere"] 5
              (λ _, eq_refl)) as (Hnorm & Hparse & _).
  destruct (engine_calls_follow_non_missing
              Fixture.expand_address Fixture.parse_address Fixture.no_interrupt
              0 [Some "12 main st london"; NA_STRING; Some "nowhere"] 5
              (λ _, eq_refl)) as (_ & _ & Hget).
  split; [exact Hnorm|]. split; [exact Hparse|]. apply Hget. lia.
Defined.

Lemma set_elements_replaces_first_occurrence_witness :
  ∃ before after,
    "12 main st london" = before +:+ "main st" +:+ after
    ∧ String.index 0 "main st" "12 main st london"
      = Some (String.length before)
    ∧ [Some "12 high st london"; NA_STRING] !! 0
      = Some (Some (before +:+ "high st" +:+ after)).
Proof.
  apply (set_elements_replaces_first_occurrence
           Fixture.parse_address Fixture.no_interrupt 0
           [Some "12 main st london"; NA_STRING] [Some "high st"] 2
           [Some "12 high st london"; NA_STRING] 0
           "12 main st london" "main st" "high st");
    [lia|reflexivity|vm_compute; reflexivity|lia|reflexivity..].
Defined.

Lemma set_elements_same_text_is_identity_witness :
  [Some "12 main st london"; NA_STRING] !! 0
  = Some (Some "12 main st london").
Proof.
  apply (set_elements_same_text_is_identity
           Fixture.parse_address Fixture.no_interrupt 0
           [Some "12 main st london"; NA_STRING] [Some "main st"] 2
           [Some "12 main st london"; NA_STRING] 0
           "12 main st london" "main st");
    [lia|reflexivity|vm_compute; reflexivity|lia|reflexivity..].
Defined.

Lemma set_elements_keeps_address_without_field_witness :
  [Some "12 main st london"; NA_STRING] !! 0
  = Some (Some "12 main st london").
Proof.
  apply (set_elements_keeps_address_without_field
           Fixture.parse_address Fixture.no_interrupt 0
           [Some "12 main st london"; NA_STRING] [Some "north end"] 3
           [Some "12 main st london"; NA_STRING] 0 "12 main st london");
    [vm_compute; reflexivity|lia|reflexivity|right; reflexivity].
Defined.

Lemma get_elements_is_parse_addr_column_witness :
  ∃ df name col,
    outcome_of
      (parse_addr Fixture.parse_address Fixture.no_interrupt 0
         [Some "12 main st london"; NA_STRING])
    = Returned df
    ∧ df !! 5 = Some (name, col)
    ∧ field_names !! 5 = Some name
    ∧ ∀ k, [Some "london"; NA_STRING] !! k = col !! k.
Proof.
  destruct (parse_addr_eq
              Fixture.parse_address Fixture.no_interrupt 0
              [Some "12 main st london"; NA_STRING] (λ _, eq_refl))
    as (cols & Heq & _).
  assert (outcome_of
            (parse_addr Fixture.parse_address Fixture.no_interrupt 0
               [Some "12 main st london"; NA_STRING])
          = Returned (zip field_names cols)) as Hdf by (by rewrite Heq).
  set (df := zip field_names cols) in *.
  destruct (get_elements_is_parse_addr_column
              Fixture.parse_address Fixture.no_interrupt 0 0
              [Some "12 main st london"; NA_STRING] 5
              [Some "london"; NA_STRING] df
              ltac:(lia) ltac:(vm_compute; reflexivity) Hdf)
    as (name & col & Hcol & Hname & Hsame).
  exists df, name, col. repeat split; try done.
  intros k. apply Hsame; lia.
Defined.

Lemma parse_single_order_irrelevant_witness :
  outcome_of (parse_single Fixture.parse_address "12 Main St")
  = outcome_of (parse_single parse_address_reversed "12 Main St").
Proof.
  apply parse_single_order_irrelevant.
  - apply Permutation_rev.
  - apply (bool_decide_unpack _). vm_compute. exact I.
Defined.

(** * The exported entry points *)

(** The file of exported functions holds, beside [setup], an earlier
    [parse_addr] of its own.  It differs from [poster_internal::parse_addr]
    in four places: its columns are created blank, not missing; it hands
    every element to the parser, a missing one too; it makes the interrupt
    check once for every component the parser reports, not once for every
    address; and it writes into the columns directly. *)

Module Wrapper.

Section WrapperCode.

Variable parse_address : string → address_parser_response_t.
Variable interrupt_pending : nat → bool.

(** [(char* ) addresses[i]]: the characters of the element.  Those of
    [NA_STRING], R's missing string, are the two letters NA. *)
Definition c_string (a : RString) : string :=
  match a with
  | Some s => s
  | None => "NA"
  end.

(** The ten tests of one component.  They are written one after the
    other; each reads the label and the component only and assigns to row
    [i] of its own column only, so the ten columns are set side by side. *)
Definition assign_component (i : nat) (c : columns) (lc : string * string)
  : columns :=
  let '(label, component) := lc in
  {| house :=
       if String.eqb label "house"
       then <[i := isna component]> (house c) else house c;
     house_number :=
       if String.eqb label "house_number"
       then <[i := isna component]> (house_number c) else house_number c;
     road :=
       if String.eqb label "road"
       then <[i := isna component]> (road c) else road c;
     suburb :=
       if String.eqb label "suburb"
       then <[i := isna component]> (suburb c) else suburb c;
     city_district :=
       if String.eqb label "city_district"
       then <[i := isna component]> (city_district c) else city_district c;
     city :=
       if String.eqb label "city"
       then <[i := isna component]> (city c) else city c;
     state_district :=
       if String.eqb label "state_district"
       then <[i := isna component]> (state_district c) else state_district c;
     state :=
       if String.eqb label "state"
       then <[i := isna component]> (state c) else state c;
     postal_code :=
       if String.eqb label "postal_code"
       then <[i := isna component]> (postal_code c) else postal_code c;
     country :=
       if String.eqb label "country"
       then <[i := isna component]> (country c) else country c |}.

(** The body of the loop over the components: the interrupt check, then the
    ten tests. *)
Definition parse_addr_component (i : nat) (lc : string * string)
  (c : columns) : M columns :=
  let* _ := interrupt_checkpoint interrupt_pending i in
  ret (assign_component i c lc).

(** [for (unsigned int n = 0; n < parsed->num_components; n++) body] *)
Fixpoint for_each {A S : Type} (l : list A) (body : A → S → M S) (s : S)
  : M S :=
  match l with
  | [] => ret s
  | x :: l' => let* s' := body x s in for_each l' body s'
  end.

(** The body of the loop over the addresses. *)
Definition parse_addr_body (addresses : CharacterVector) (i : nat)
  (cols : columns) : M columns :=
  let* parsed := do_parse_address parse_address (c_string (addresses !!! i)) in
  for_each parsed (parse_addr_component i) cols.

(** The exported [parse_addr].  Its counter too is declared without an
    initialiser: [i0] is the value it starts from. *)
Definition parse_addr (i0 : nat) (addresses : CharacterVector)
  : M DataFrame :=
  let input_size := length addresses in
  let cols :=
    {| house := new_vector input_size;
       house_number := new_vector input_size;
       road := new_vector input_size;
       suburb := new_vector input_size;
       city_district := new_vector input_size;
       city := new_vector input_size;
       state_district := new_vector input_size;
       state := new_vector input_size;
       postal_code := new_vector input_size;
       country := new_vector input_size |} in
  let* cols := for_range i0 input_size (parse_addr_body addresses) cols in
  ret (DataFrame_create cols).

(** What the exported [parse_addr] holds for a field in a row it has
    reached: the last value the parser reports under the field's name,
    [NA_STRING] if that value is blank, and the blank string if the parser
    reports no such field. *)
Definition slot_or_blank (name : string)
  (pairs : address_parser_response_t) : RString :=
  match last (filter (λ lc, lc.1 = name) pairs) with
  | Some (_, value) => toOptional value
  | None => Some ""
  end.

(** What the components of address [i] write into column [s], if
    anything. *)
Definition component_write (addresses : CharacterVector) (s i : nat)
  : option RString :=
  match field_names !! s with
  | Some name =>
      match last (filter (λ lc, lc.1 = name)
                    (parse_address (c_string (addresses !!! i)))) with
      | Some (_, value) => Some (toOptional value)
      | None => None
      end
  | None => None
  end.

(** ** The loop over the components *)

Lemma for_each_component_quiet i (pairs : address_parser_response_t) c :
  interrupt_checkpoint interrupt_pending i = ret tt →
  for_each pairs (parse_addr_component i) c
  = ret (fold_left (assign_component i) pairs c).
Proof.
  intros Hc. revert c. induction pairs as [|lc pairs IH]; intros c; [done|].
  cbn [for_each fold_left]. unfold parse_addr_component at 1.
  by rewrite Hc, !bind_ret.
Qed.

Lemma for_each_component_interrupted i lc
  (pairs : address_parser_response_t) c :
  interrupt_checkpoint interrupt_pending i = raise user_interrupt →
  for_each (lc :: pairs) (parse_addr_component i) c = raise user_interrupt.
Proof.
  intros Hc. cbn [for_each]. unfold parse_addr_component. by rewrite Hc.
Qed.

(** An address is interrupted only if the parser reports a component for
    it. *)
Lemma parse_addr_body_returns (addresses : CharacterVector) i c :
  parse_address (c_string (addresses !!! i)) = []
  ∨ interrupt_checkpoint interrupt_pending i = ret tt →
  parse_addr_body addresses i c
  = (Returned
       (fold_left (assign_component i)
          (parse_address (c_string (addresses !!! i))) c),
     [call_parse_address (c_string (addresses !!! i))]).
Proof.
  intros Hcase. unfold parse_addr_body, do_parse_address, tell.
  unfold bind at 2. simpl. unfold bind.
  destruct Hcase as [Hnil|Hc].
  - by rewrite Hnil.
  - by rewrite for_each_component_quiet.
Qed.

Lemma parse_addr_body_interrupted (addresses : CharacterVector) i c :
  parse_address (c_string (addresses !!! i)) ≠ [] →
  interrupt_checkpoint interrupt_pending i = raise user_interrupt →
  parse_addr_body addresses i c
  = (Raised user_interrupt,
     [call_parse_address (c_string (addresses !!! i))]).
Proof.
  intros Hpairs Hc. unfold parse_addr_body, do_parse_address, tell.
  unfold bind at 2. simpl. unfold bind.
  destruct (parse_address _) as [|lc pairs]; [done|].
  by rewrite for_each_component_interrupted.
Qed.

(** ** The columns after the components of one address *)

Lemma column_list_assign i c label v s :
  column_list (assign_component i c (label, v)) !! s
  = (λ col,
       match field_names !! s with
       | Some name => if decide (label = name) then <[i := isna v]> col
                      else col
       | None => col
       end) <$> column_list c !! s.
Proof.
  destruct c.
  destruct (String.eqb_spec label "house") as [->|?];
    [by do 10 (destruct s as [|s]; [done|])|].
  destruct (String.eqb_spec label "house_number") as [->|?];
    [by do 10 (destruct s as [|s]; [done|])|].
  destruct (String.eqb_spec label "road") as [->|?];
    [by do 10 (destruct s as [|s]; [done|])|].
  destruct (String.eqb_spec label "suburb") as [->|?];
    [by do 10 (destruct s as [|s]; [done|])|].
  destruct (String.eqb_spec label "city_district") as [->|?];
    [by do 10 (destruct s as [|s]; [done|])|].
  destruct (String.eqb_spec label "city") as [->|?];
    [by do 10 (destruct s as [|s]; [done|])|].
  destruct (String.eqb_spec label "state_district") as [->|?];
    [by do 10 (destruct s as [|s]; [done|])|].
  destruct (String.eqb_spec label "state") as [->|?];
    [by do 10 (destruct s as [|s]; [done|])|].
  destruct (String.eqb_spec label "postal_code") as [->|?];
    [by do 10 (destruct s as [|s]; [done|])|].
  destruct (String.eqb_spec label "country") as [->|?];
    [by do 10 (destruct s as [|s]; [done|])|].
  unfold assign_component.
  repeat match goal with
  | H : label ≠ _ |- _ =>
      let H' := fresh in
      pose proof (proj2 (String.eqb_neq _ _) H) as H'; rewrite H'; clear H'
  end.
  do 10 (destruct s as [|s];
         [cbn [column_list lookup list_lookup field_names fmap option_fmap
               option_map];
          by rewrite decide_False by done|]).
  done.
Qed.

Lemma column_list_assign_fold (addresses : CharacterVector) i c s :
  column_list
    (fold_left (assign_component i)
       (parse_address (c_string (addresses !!! i))) c) !! s
  = (λ col, match component_write addresses s i with
            | Some x => <[i := x]> col
            | None => col
            end) <$> column_list c !! s.
Proof.
  unfold component_write.
  induction (parse_address (c_string (addresses !!! i)))
    as [|[label v] pairs IH] using rev_ind.
  - cbn [fold_left]. destruct (column_list c !! s) as [col|]; [|done].
    by destruct (field_names !! s).
  - rewrite fold_left_app. cbn [fold_left].
    rewrite column_list_assign, IH.
    destruct (column_list c !! s) as [col|]; [|done]. simpl. f_equal.
    destruct (field_names !! s) as [name|]; [|done].
    rewrite filter_app, filter_cons, filter_nil. simpl.
    case_decide as Hlabel.
    + rewrite last_snoc, isna_toOptional.
      destruct (last _) as [[? ?]|]; [apply list_insert_insert_eq|done].
    + by rewrite app_nil_r.
Qed.

(** The columns after a run of iterations, each of which writes into row
    [j] of column [s] what [w s j] says. *)
Lemma column_list_fold_writes (upd : nat → columns → columns)
  (w : nat → nat → option RString) (l : list nat) c s :
  (∀ j c s, column_list (upd j c) !! s
            = (λ col, match w s j with
                      | Some x => <[j := x]> col
                      | None => col
                      end) <$> column_list c !! s) →
  column_list (fold_left (λ c j, upd j c) l c) !! s
  = fold_left (λ col j, match w s j with
                        | Some x => <[j := x]> col
                        | None => col
                        end) l
    <$> column_list c !! s.
Proof.
  intros Hupd. revert c. induction l as [|j l IH]; intros c; cbn [fold_left].
  - by destruct (column_list c !! s).
  - rewrite IH, Hupd. by destruct (column_list c !! s).
Qed.

(** ** The exported [parse_addr], not interrupted *)

Lemma parse_addr_run i0 (addresses : CharacterVector) :
  (∀ j, i0 ≤ j < length addresses →
     parse_address (c_string (addresses !!! j)) = []
     ∨ interrupt_checkpoint interrupt_pending j = ret tt) →
  ∃ cols : list CharacterVector,
    parse_addr i0 addresses
    = (Returned (zip field_names cols),
       (λ a, call_parse_address (c_string a)) <$> drop i0 addresses)
    ∧ length cols = 10
    ∧ ∀ s name col, cols !! s = Some col → field_names !! s = Some name →
        length col = length addresses
        ∧ ∀ k, k < length addresses →
            col !! k
            = Some (if decide (i0 ≤ k)
                    then slot_or_blank name
                           (parse_address (c_string (addresses !!! k)))
                    else Some "").
Proof.
  intros Hquiet. unfold parse_addr, for_range.
  set (n := length addresses).
  set (cols0 := Columns _ _ _ _ _ _ _ _ _ _).
  rewrite (bind_returned _ _ _ _
    (for_loop_pure (parse_addr_body addresses)
       (λ j c, fold_left (assign_component j)
                 (parse_address (c_string (addresses !!! j))) c)
       (λ j, [call_parse_address (c_string (addresses !!! j))])
       (n - i0) i0 cols0
       (λ j c Hj, parse_addr_body_returns addresses j c
                    (Hquiet j ltac:(lia))))).
  cbn [ret fst snd]. rewrite app_nil_r, DataFrame_create_zip.
  eexists. split.
  { f_equal. subst n.
    rewrite (fmap_seq_lookup_total
               (λ a, [call_parse_address (c_string a)]) addresses i0).
    generalize (drop i0 addresses). intros l.
    induction l as [|a l IH]; [done|]. cbn. by rewrite IH. }
  split; [reflexivity|].
  intros s name col Hcol Hname.
  rewrite (column_list_fold_writes _ (component_write addresses)) in Hcol
    by (intros; apply column_list_assign_fold).
  assert (∀ v, column_list cols0 !! s = Some v → v = new_vector n) as Hinit.
  { intros v. do 10 (destruct s as [|s]; [by intros [= <-]|]). done. }
  destruct (column_list cols0 !! s) as [v|]; [|done].
  rewrite (Hinit v eq_refl) in Hcol. injection Hcol as <-.
  split.
  { by rewrite length_fold_write, length_new_vector. }
  intros k Hk.
  rewrite lookup_fold_write by (rewrite length_new_vector; lia).
  unfold component_write, slot_or_blank, new_vector.
  rewrite lookup_replicate_2, Hname by done.
  repeat case_decide; try lia; try done.
  by destruct (last _) as [[? ?]|].
Qed.

(** X11. In a run the host does not interrupt, the exported [parse_addr]
    calls the parser once for every address from the index its counter
    starts from, in order, a missing address included: for that one the
    parser is given the text NA. *)
Theorem exported_parse_addr_parses_every_address i0
  (addresses : CharacterVector) :
  (∀ j, interrupt_pending j = false) →
  calls_of (parse_addr i0 addresses)
  = (λ a, call_parse_address (c_string a)) <$> drop i0 addresses.
Proof.
  intros Hq.
  destruct (parse_addr_run i0 addresses) as (cols & -> & _); [|done].
  intros j _. right. by apply interrupt_checkpoint_quiet.
Qed.

(** X12. In a run the host does not interrupt, the exported [parse_addr]
    returns ten columns, named by the ten field names in their order and as
    long as the batch; in a row the loop has reached, a column holds the
    last value the parser reports under the column's name, [NA_STRING] if
    that value is blank, and the blank string (not [NA_STRING]) if the
    parser reports no such field; a row the loop has not reached is
    blank. *)
Theorem exported_parse_addr_columns i0 (addresses : CharacterVector) :
  (∀ j, interrupt_pending j = false) →
  ∃ cols : list CharacterVector,
    outcome_of (parse_addr i0 addresses) = Returned (zip field_names cols)
    ∧ (zip field_names cols).*1 = field_names
    ∧ ∀ s name col, cols !! s = Some col → field_names !! s = Some name →
        length col = length addresses
        ∧ ∀ k, k < length addresses →
            col !! k
            = Some (if decide (i0 ≤ k)
                    then
                      match
                        last (filter (λ lc, lc.1 = name)
                                (parse_address (c_string (addresses !!! k))))
                      with
                      | Some (_, value) => toOptional value
                      | None => Some ""
                      end
                    else Some "").
Proof.
  intros Hq.
  destruct (parse_addr_run i0 addresses) as (cols & -> & Hcols & Hcol).
  { intros j _. right. by apply interrupt_checkpoint_quiet. }
  exists cols. split; [done|]. split; [|exact Hcol].
  apply fst_zip. by rewrite Hcols.
Qed.

(** ** The exported [parse_addr], interrupted *)

Lemma parse_addr_body_cases (addresses : CharacterVector) i c :
  (∃ c', outcome_of (parse_addr_body addresses i c) = Returned c')
  ∨ outcome_of (parse_addr_body addresses i c) = Raised user_interrupt.
Proof.
  destruct (decide (parse_address (c_string (addresses !!! i)) = []))
    as [Hnil|Hpairs].
  - left. rewrite parse_addr_body_returns by (by left). by eexists.
  - destruct (interrupt_checkpoint_cases interrupt_pending i) as [Hc|Hc].
    + left. rewrite parse_addr_body_returns by (by right). by eexists.
    + right. by rewrite parse_addr_body_interrupted.
Qed.

Lemma parse_addr_interrupted i0 (addresses : CharacterVector) j :
  i0 ≤ j < length addresses →
  parse_address (c_string (addresses !!! j)) ≠ [] →
  interrupt_checkpoint interrupt_pending j = raise user_interrupt →
  outcome_of (parse_addr i0 addresses) = Raised user_interrupt.
Proof.
  intros Hj Hpairs Hc. unfold parse_addr.
  set (cols0 := Columns _ _ _ _ _ _ _ _ _ _).
  assert (outcome_of
            (for_range i0 (length addresses) (parse_addr_body addresses) cols0)
          = Raised user_interrupt) as Hloop.
  { apply for_loop_raises.
    - intros j' c _. apply parse_addr_body_cases.
    - exists j. split; [lia|]. intros c.
      by rewrite parse_addr_body_interrupted. }
  unfold outcome_of in *.
  destruct (for_range _ _ _ _) as [[c|e] t]; simpl in *; congruence.
Qed.

(** X13. The exported [parse_addr] is interrupted exactly when the host has
    an interrupt pending at an index of its range that is a multiple of
    10000 and for whose address the parser reports at least one component:
    the check stands inside the loop over the components, so an address
    with no component is passed without one.  It raises nothing else. *)
Theorem exported_parse_addr_interrupted_iff i0
  (addresses : CharacterVector) :
  (outcome_of (parse_addr i0 addresses) = Raised user_interrupt
   ↔ ∃ j, i0 ≤ j < length addresses
          ∧ (N.of_nat j mod 10000 = 0)%N
          ∧ interrupt_pending j = true
          ∧ parse_address (c_string (addresses !!! j)) ≠ [])
  ∧ (∀ e, outcome_of (parse_addr i0 addresses) = Raised e →
       e = user_interrupt).
Proof.
  assert (∀ e, outcome_of (parse_addr i0 addresses) = Raised e →
            ∃ j c, i0 ≤ j < length addresses
                   ∧ outcome_of (parse_addr_body addresses j c) = Raised e)
    as Hraised.
  { intros e. unfold parse_addr.
    intros [Hloop|(c & _ & Hret)]%bind_raised_inv; [|done].
    apply for_loop_raised_at in Hloop as (j & c & Hj & Hbody).
    exists j, c. split; [lia|done]. }
  split; [split|].
  - intros (j & c & Hj & Hbody)%Hraised. exists j. split; [done|].
    destruct (decide (parse_address (c_string (addresses !!! j)) = []))
      as [Hnil|Hpairs].
    { by rewrite parse_addr_body_returns in Hbody by (by left). }
    destruct (interrupt_checkpoint_cases interrupt_pending j) as [Hc|Hc].
    { by rewrite parse_addr_body_returns in Hbody by (by right). }
    apply interrupt_checkpoint_raises_iff in Hc as [? ?]. done.
  - intros (j & Hj & Hmod & Hpending & Hpairs).
    apply (parse_addr_interrupted i0 addresses j); [done..|].
    by apply interrupt_checkpoint_raises_iff.
  - intros e (j & c & Hj & Hbody)%Hraised.
    destruct (parse_addr_body_cases addresses j c) as [[c' Hc']|Hc'];
      congruence.
Qed.

End WrapperCode.

End Wrapper.

(** ** The two [parse_addr] side by side *)

(** X14. Whenever both return, the two [parse_addr] differ, at a row both
    have reached and whose address is not missing, only in how they show a
    field the parser does not report: the exported one holds the blank
    string there and [poster_internal::parse_addr] holds [NA_STRING]; any
    other entry is the same in both. *)
Theorem parse_addr_versions_agree
  (parse_address : string → address_parser_response_t)
  (interrupt_pending : nat → bool) i0 i1 (addresses : CharacterVector)
  dfP dfW s name colP colW k a :
  outcome_of (parse_addr parse_address interrupt_pending i0 addresses)
  = Returned dfP →
  outcome_of (Wrapper.parse_addr parse_address interrupt_pending i1 addresses)
  = Returned dfW →
  dfP !! s = Some (name, colP) →
  dfW !! s = Some (name, colW) →
  i0 ≤ k → i1 ≤ k →
  addresses !! k = Some (Some a) →
  ∃ x, colW !! k = Some x
       ∧ colP !! k = Some (if decide (x = Some "") then NA_STRING else x).
Proof.
  intros (colsP & -> & HcolsP & HcolP)%parse_addr_returned HW HsP HsW
    Hk0 Hk1 Ha.
  pose proof (lookup_lt_Some _ _ _ Ha) as Hlt.
  destruct (Wrapper.parse_addr_run parse_address interrupt_pending i1 addresses)
    as (colsW & HeqW & HcolsW & HcolW).
  { intros j Hj.
    destruct (decide (parse_address
                        (Wrapper.c_string (addresses !!! j)) = []))
      as [|Hpairs]; [by left|right].
    destruct (interrupt_checkpoint_cases interrupt_pending j) as [|Hc];
      [done|].
    by rewrite (Wrapper.parse_addr_interrupted _ _ i1 addresses j Hj Hpairs Hc)
      in HW. }
  assert (dfW = zip field_names colsW) as ->
    by (rewrite HeqW in HW; by injection HW).
  apply lookup_zip_with_Some in HsP as (? & ? & [= <- <-] & Hname & HsP).
  apply lookup_zip_with_Some in HsW as (? & ? & [= <- <-] & _ & HsW).
  destruct (HcolP s colP HsP) as [_ HatP].
  destruct (HcolW s name colW HsW Hname) as [_ HatW].
  rewrite HatP, HatW by done. rewrite !decide_True by done.
  rewrite (list_lookup_total_correct _ _ _ Ha).
  eexists. split; [done|]. f_equal.
  unfold field_of, Wrapper.slot_or_blank, Wrapper.c_string.
  rewrite (list_lookup_total_correct (address_record (parse_address a)) s
             (slot_by_last_write name (parse_address a)))
    by (unfold address_record; by rewrite list_lookup_fmap, Hname).
  unfold slot_by_last_write.
  destruct (last _) as [[label v]|]; [|done].
  rewrite decide_False; [done|]. apply toOptional_not_blank.
Qed.

(** ** The properties of the exported [parse_addr] at concrete inputs *)

Lemma exported_parse_addr_parses_every_address_witness :
  calls_of
    (Wrapper.parse_addr Fixture.parse_address Fixture.no_interrupt 0
       [Some "12 Main St"; NA_STRING])
  = [call_parse_address "12 Main St"; call_parse_address "NA"].
Proof.
  exact (Wrapper.exported_parse_addr_parses_every_address
           Fixture.parse_address Fixture.no_interrupt 0
           [Some "12 Main St"; NA_STRING] (λ _, eq_refl)).
Defined.

Lemma exported_parse_addr_columns_witness :
  ∃ cols : list CharacterVector,
    outcome_of
      (Wrapper.parse_addr Fixture.parse_address Fixture.no_interrupt 0
         [Some "12 Main St"; NA_STRING])
    = Returned (zip field_names cols)
    ∧ (∀ col, cols !! 2 = Some col → col !! 0 = Some (Some "main st"))
    ∧ (∀ col, cols !! 5 = Some col → col !! 0 = Some (Some "")).
Proof.
  destruct (Wrapper.exported_parse_addr_columns
              Fixture.parse_address Fixture.no_interrupt 0
              [Some "12 Main St"; NA_STRING] (λ _, eq_refl))
    as (cols & Hout & _ & Hcol).
  exists cols. split; [exact Hout|]. split; intros col Hs.
  - destruct (Hcol 2 "road" col Hs eq_refl) as [_ Hat].
    exact (Hat 0 ltac:(simpl; lia)).
  - destruct (Hcol 5 "city" col Hs eq_refl) as [_ Hat].
    exact (Hat 0 ltac:(simpl; lia)).
Defined.

Lemma parse_addr_versions_agree_witness :
  ∃ x, [Some ""; Some ""] !! 0 = Some x
       ∧ [NA_STRING; NA_STRING] !! 0
         = Some (if decide (x = Some "") then NA_STRING else x).
Proof.
  eapply (parse_addr_versions_agree
            Fixture.parse_address Fixture.no_interrupt 0 0
            [Some "12 Main St"; NA_STRING] _ _ 5 "city" _ _ 0 "12 Main St");
    [vm_compute; reflexivity|vm_compute; reflexivity
    |reflexivity|reflexivity|lia|lia|reflexivity].
Defined.

Lemma missing_propagates_where_visited_witness :
  (∃ out,
     outcome_of
       (address_normalise Fixture.expand_address Fixture.no_interrupt
          [Some "12 main st london"; NA_STRING])
     = Returned out ∧ out !! 1 = Some NA_STRING)
  ∧ (∃ out,
       outcome_of
         (get_elements Fixture.parse_address Fixture.no_interrupt 0
            [Some "12 main st london"; NA_STRING] 5)
       = Returned out ∧ out !! 1 = Some NA_STRING).
Proof.
  destruct (missing_propagates_where_visited
              Fixture.expand_address Fixture.parse_address Fixture.no_interrupt
              0 [Some "12 main st london"; NA_STRING] [Some "x"] 5 1 eq_refl)
    as (Hnormalise & _ & Hget & _).
  split; eexists; (split; [vm_compute; reflexivity|]).
  - apply Hnormalise. vm_compute. reflexivity.
  - apply Hget; [vm_compute; reflexivity|lia].
Defined.

Lemma set_elements_not_found_witness :
  outcome_of
    (set_elements Fixture.parse_address Fixture.no_interrupt 0
       [Some "12 Main St"; Some "1 high st"] [Some "High St"] 2)
  = Raised std_out_of_range.
Proof.
  apply (set_elements_not_found
           Fixture.parse_address Fixture.no_interrupt 0
           [Some "12 Main St"; Some "1 high st"] [Some "High St"] 2);
    [intros; reflexivity|lia|left; reflexivity|].
  exists 0, "12 Main St", "main st", "High St".
  repeat split; try reflexivity; lia.
Defined.
